(** * VoteableContent: the reply-tree expander and the distinguish actions

    A shallow embedding of [src/objects/VoteableContent.js].

    The JavaScript objects live in a store: entities (Submissions and
    Comments) and Listings are allocated at addresses, a field of an entity
    holds a value that may be a reference to a Listing, and a Listing is an
    array of references to entities.  An [async] method runs up to its first
    [await], where it leaves a request in flight; the answer to a request is
    an event of the environment, and the continuation of the method runs
    when that event arrives.  Numbers are the integers and [Infinity] (the
    defaults of [expandReplies]); fractions and [NaN] are not modelled.

    The collaborators of the class are not among the sources: the requester
    ([_post]), the refresh ([fetch]), the deep clone ([_clone]) and the
    Listing ([fetchMore]).  [_post] and [_clone] are parameters, the
    answers of [fetch] and [fetchMore] are events, and what the spec asks
    of them is a hypothesis of the theorem that needs it. *)

From Stdlib Require Import ZArith String List Lia Bool Wellfounded.
From stdpp Require Import base tactics option list.

Open Scope string_scope.
Open Scope list_scope.
Open Scope nat_scope.

(** ** Numbers, as far as the expander uses them *)

Inductive num : Type :=
| Fin (z : Z)
| Inf.

(** [n <= 0] *)
Definition num_le0 (n : num) : bool :=
  match n with
  | Fin z => (z <=? 0)%Z
  | Inf => false
  end.

(** [n - 1] *)
Definition num_pred (n : num) : num :=
  match n with
  | Fin z => Fin (z - 1)
  | Inf => Inf
  end.

(** [n - len], with [len] the [length] of an array; the difference is not
    clamped. *)
Definition num_sub_len (n : num) (len : nat) : num :=
  match n with
  | Fin z => Fin (z - Z.of_nat len)
  | Inf => Inf
  end.

(** [Array.prototype.slice(0, n)]: a negative end counts from the end of
    the array, an end past the length is the length. *)
Definition slice0 {A : Type} (n : num) (l : list A) : list A :=
  match n with
  | Inf => l
  | Fin z =>
      if (z <? 0)%Z
      then take (Z.to_nat (Z.max (Z.of_nat (length l) + z) 0)) l
      else take (Z.to_nat (Z.min z (Z.of_nat (length l)))) l
  end.

(** ** Objects and the store *)

(** References: [addr] to an entity, [laddr] to a Listing. *)
Abbreviation addr := nat (only parsing).
Abbreviation laddr := nat (only parsing).

Inductive value : Type :=
| VUndefined
| VBool (b : bool)
| VNum (z : Z)
| VStr (s : string)
| VListing (l : laddr).

(** The own properties of an object, in insertion order. *)
Abbreviation props := (list (string * value)) (only parsing).

Fixpoint prop_get (k : string) (o : props) : option value :=
  match o with
  | [] => None
  | (k', v) :: o' => if String.eqb k k' then Some v else prop_get k o'
  end.

(** [o[k] = v]: an existing property keeps its place, a new one goes last. *)
Fixpoint prop_set (k : string) (v : value) (o : props) : props :=
  match o with
  | [] => [(k, v)]
  | (k', v') :: o' =>
      if String.eqb k k' then (k, v) :: o' else (k', v') :: prop_set k v o'
  end.

(** An entity: [_name] is [this.constructor._name]. *)
Record Entity : Type := mkEntity {
  _name : string;
  fields : props
}.

(** A Listing is an Array of entities; what it knows about the pages it has
    not fetched yet belongs to the Listing collaborator and is left out. *)
Abbreviation Listing := (list nat) (only parsing).

Record Heap : Type := mkHeap {
  ents : list Entity;
  lsts : list Listing
}.

Definition alloc (h : Heap) (new_ents : list Entity) (new_lsts : list Listing) : Heap :=
  {| ents := ents h ++ new_ents; lsts := lsts h ++ new_lsts |}.

(** [this[k] = v] on the entity at [a]. *)
Definition set_field (a : addr) (k : string) (v : value) (h : Heap) : Heap :=
  match ents h !! a with
  | Some e =>
      {| ents := <[a := {| _name := _name e; fields := prop_set k v (fields e) |}]> (ents h);
         lsts := lsts h |}
  | None => h
  end.

Definition get_field (h : Heap) (a : addr) (k : string) : option value :=
  match ents h !! a with
  | Some e => prop_get k (fields e)
  | None => None
  end.

(** ** Promises, calls and requests in flight *)

Inductive error : Type :=
| TypeError
| ServiceError (code : nat).

Inductive promise : Type :=
| Pending
| Fulfilled (a : addr)
| Rejected (e : error).

(** One activation of [_mutateAndExpandReplies], with the promise it
    returned. *)
Record Call : Type := mkCall {
  c_this : addr;
  c_limit : num;
  c_depth : num;
  c_promise : promise
}.

(** An activation suspended at [await this[repliesKey].fetchMore(...)]:
    what the continuation still needs, and the request that was sent. *)
Record Task : Type := mkTask {
  t_call : nat;
  t_this : addr;
  t_key : string;
  t_limit : num;
  t_depth : num;
  t_listing : laddr;
  t_amount : num
}.

Inductive Stage : Type :=
| AwaitingFetch (this : addr) (limit depth : num)
| Expanding
| Failed (e : error).

Record State : Type := mkState {
  heap : Heap;
  stage : Stage;
  calls : list Call;
  pending : list Task;
  requests : list (laddr * num)   (* every fetchMore({amount}) sent so far *)
}.

(** What the environment answers. *)
Inductive fetch_response : Type :=
| FetchOk
| FetchFail (e : error).

(** Modelled from the spec: Fetch-more, of the Listing class, is not in the
    sources.  It answers with a failure or with a Listing; the Listing and
    the entities it fetched are new objects ([new_ents], [new_lsts] are
    allocated at the end of the store), and the objects already in the store
    are left as they are.  Which items the Listing holds is up to the
    answer; the contract of the spec (every item held before, in the same
    order) is a hypothesis where a theorem needs it. *)
Inductive fm_response : Type :=
| FmFail (e : error)
| FmOk (new_ents : list Entity) (new_lsts : list Listing) (l : laddr).

Inductive event : Type :=
| FetchDone (r : fetch_response)
| FetchMoreDone (i : nat) (r : fm_response).

(** ** [_mutateAndExpandReplies], lines 150-159 *)

(** [this.constructor._name === 'Submission' ? 'comments' : 'replies'] *)
Definition repliesKey (e : Entity) : string :=
  if String.eqb (_name e) "Submission" then "comments" else "replies".

Definition push_call (c : Call) (s : State) : State :=
  {| heap := heap s; stage := stage s; calls := calls s ++ [c];
     pending := pending s; requests := requests s |}.

Definition with_promise (p : promise) (c : Call) : Call :=
  {| c_this := c_this c; c_limit := c_limit c; c_depth := c_depth c; c_promise := p |}.

(** The promise of the call [id] is settled. *)
Definition settle (id : nat) (p : promise) (s : State) : State :=
  {| heap := heap s; stage := stage s;
     calls := alter (with_promise p) id (calls s);
     pending := pending s; requests := requests s |}.

Definition with_heap (h : Heap) (s : State) : State :=
  {| heap := h; stage := stage s; calls := calls s;
     pending := pending s; requests := requests s |}.

Definition with_pending (p : list Task) (s : State) : State :=
  {| heap := heap s; stage := stage s; calls := calls s;
     pending := p; requests := requests s |}.

Definition with_stage (g : Stage) (s : State) : State :=
  {| heap := heap s; stage := g; calls := calls s;
     pending := pending s; requests := requests s |}.

Definition log_request (l : laddr) (n : num) (s : State) : State :=
  {| heap := heap s; stage := stage s; calls := calls s;
     pending := pending s; requests := requests s ++ [(l, n)] |}.

(** The method up to its first [await].  The result is the new state and the
    request left in flight, if there is one.  With [depth <= 0] the promise
    is fulfilled with [this] at once.  A [this[repliesKey]] that is not a
    Listing makes the member call throw, which rejects the promise. *)
Definition _mutateAndExpandReplies (this : addr) (limit depth : num) (s : State)
  : State * list Task :=
  let id := length (calls s) in
  let call p := {| c_this := this; c_limit := limit; c_depth := depth; c_promise := p |} in
  if num_le0 depth then (push_call (call (Fulfilled this)) s, [])
  else
    match ents (heap s) !! this with
    | None => (push_call (call (Rejected TypeError)) s, [])
    | Some e =>
        let key := repliesKey e in
        match prop_get key (fields e) with
        | Some (VListing l) =>
            match lsts (heap s) !! l with
            | Some items =>
                let amount := num_sub_len limit (length items) in
                (log_request l amount (push_call (call Pending) s),
                 [ {| t_call := id; t_this := this; t_key := key; t_limit := limit;
                      t_depth := depth; t_listing := l; t_amount := amount |} ])
            | None => (push_call (call (Rejected TypeError)) s, [])
            end
        | _ => (push_call (call (Rejected TypeError)) s, [])
        end
    end.

(** [replies.slice(0, limit).map(reply => reply._mutateAndExpandReplies(...))]:
    the calls are made one after the other and their promises are dropped.
    An item that is not an entity has no such method: the callback throws
    and the map stops there ([false]). *)
Fixpoint map_calls (targets : list addr) (limit depth : num) (s : State)
  : State * list Task * bool :=
  match targets with
  | [] => (s, [], true)
  | reply :: rest =>
      match ents (heap s) !! reply with
      | None => (s, [], false)
      | Some _ =>
          let '(s1, ts1) := _mutateAndExpandReplies reply limit depth s in
          let '(s2, ts2, ok) := map_calls rest limit depth s1 in
          (s2, ts1 ++ ts2, ok)
      end
  end.

(** The rest of the method, run when the answer to its request arrives. *)
Definition resume (t : Task) (r : fm_response) (s : State) : State * list Task :=
  match r with
  | FmFail e => (settle (t_call t) (Rejected e) s, [])
  | FmOk new_ents new_lsts replies =>
      let h1 := alloc (heap s) new_ents new_lsts in
      let s1 := with_heap (set_field (t_this t) (t_key t) (VListing replies) h1) s in
      match lsts (heap s1) !! replies with
      | None => (settle (t_call t) (Rejected TypeError) s1, [])
      | Some items =>
          let '(s2, ts, ok) :=
            map_calls (slice0 (t_limit t) items) (t_limit t) (num_pred (t_depth t)) s1 in
          (settle (t_call t) (if ok then Fulfilled (t_this t) else Rejected TypeError) s2, ts)
      end
  end.

(** ** [expandReplies], lines 189-192, and the event loop *)

(** [{limit = Infinity, depth = Infinity} = {}]: a missing option is
    [None]. *)
Record ExpandOptions : Type := mkExpandOptions {
  limit : option num;
  depth : option num
}.

Definition no_options : ExpandOptions := {| limit := None; depth := None |}.

(** The promise of [expandReplies]: it waits for [this.fetch()], then it is
    the promise of the call on the clone, which is the first call made.  A
    promise is settled in the turn that runs the [return] or the [throw] of
    its call; the microtasks that hand the settlement over from the promise
    of the call to the promise of [expandReplies] are not told apart. *)
Definition expand_promise (s : State) : promise :=
  match stage s with
  | AwaitingFetch _ _ _ => Pending
  | Failed e => Rejected e
  | Expanding =>
      match calls s !! 0 with
      | Some c => c_promise c
      | None => Pending
      end
  end.

Section Expand.

(** Deep-clone, of the base class, is not in the sources: [_clone h a] is
    the store after [a._clone({deep: true})] and the address of the copy.
    Its contract (section 4.2 of the spec) is a hypothesis of the theorems
    that need it. *)
Variable _clone : Heap -> addr -> Heap * addr.

(** [expandReplies] up to [await this.fetch()]. *)
Definition expandReplies (this : addr) (options : ExpandOptions) (h : Heap) : State :=
  {| heap := h;
     stage := AwaitingFetch this (default Inf (limit options)) (default Inf (depth options));
     calls := []; pending := []; requests := [] |}.

(** Modelled from the spec: Fetch-root, of the base class, is not in the
    sources.  It answers with the refreshed entity or fails; the code drops
    the answer, so only the failure is kept here, and the entity the caller
    holds is left as it is.

    The second line of [expandReplies]: the clone is made and the
    recursive step is called on it. *)
Definition after_fetch (this : addr) (lim dep : num) (r : fetch_response) (s : State)
  : State :=
  match r with
  | FetchFail e => with_stage (Failed e) s
  | FetchOk =>
      let '(h1, c) := _clone (heap s) this in
      match ents h1 !! c with
      | None => with_stage (Failed TypeError) (with_heap h1 s)
      | Some _ =>
          let '(s1, ts) :=
            _mutateAndExpandReplies c lim dep (with_stage Expanding (with_heap h1 s)) in
          with_pending ts s1
      end
  end.

(** An event is expected when the request it answers is in flight. *)
Definition expected (s : State) (ev : event) : bool :=
  match ev, stage s with
  | FetchDone _, AwaitingFetch _ _ _ => true
  | FetchMoreDone i _, Expanding => bool_decide (i < length (pending s))
  | _, _ => false
  end.

(** One turn of the event loop.  The requests of a continuation take the
    place of the one that was answered; the order of [pending] has no
    meaning, the environment picks by position. *)
Definition step (s : State) (ev : event) : State :=
  match ev, stage s with
  | FetchDone r, AwaitingFetch this lim dep => after_fetch this lim dep r s
  | FetchMoreDone i r, Expanding =>
      match pending s !! i with
      | Some t =>
          let '(s1, ts) := resume t r s in
          with_pending (take i (pending s) ++ ts ++ drop (S i) (pending s)) s1
      | None => s
      end
  | _, _ => s
  end.

Definition exec (s : State) (tr : list event) : State := fold_left step tr s.

(** The transitions of the event loop. *)
Definition next (s' s : State) : Prop :=
  exists ev, expected s ev = true /\ s' = step s ev.

End Expand.

(** ** Reading the reply tree off the store *)

(** The items of the Listing in the children field of [a]. *)
Definition children (h : Heap) (a : addr) : list addr :=
  match ents h !! a with
  | Some e =>
      match prop_get (repliesKey e) (fields e) with
      | Some (VListing l) => default [] (lsts h !! l)
      | _ => []
      end
  | None => []
  end.

(** What identifies a node: its kind and its [name]. *)
Definition label (h : Heap) (a : addr) : option (string * option value) :=
  match ents h !! a with
  | Some e => Some (_name e, prop_get "name" (fields e))
  | None => None
  end.

#[warnings="-register-all"]
Inductive Tree : Type :=
| Node (lab : option (string * option value)) (kids : list Tree).

(** The reply tree under [a], [n] levels deep. *)
Fixpoint tree_of (n : nat) (h : Heap) (a : addr) : Tree :=
  match n with
  | 0 => Node (label h a) []
  | S n' => Node (label h a) (map (tree_of n' h) (children h a))
  end.

(** [tree_le t t']: [t'] has every node of [t], under the same parent and
    with siblings in the same order. *)
Inductive tree_le : Tree -> Tree -> Prop :=
| tree_le_node lab ks ks' :
    kids_le ks ks' -> tree_le (Node lab ks) (Node lab ks')
with kids_le : list Tree -> list Tree -> Prop :=
| kids_le_nil : kids_le [] []
| kids_le_skip t ks ks' : kids_le ks ks' -> kids_le ks (t :: ks')
| kids_le_cons t t' ks ks' :
    tree_le t t' -> kids_le ks ks' -> kids_le (t :: ks) (t' :: ks').

(** ** A deep clone to run the model with *)

(** Modelled from the spec: Deep-clone (section 4.2) gives a new entity
    with the same attributes and the same tree of children, sharing no
    Listing and no child with the source.  [fuel] bounds the depth of the
    copy. *)
Fixpoint deep_clone (fuel : nat) (h : Heap) (a : addr) : Heap * addr :=
  match fuel, ents h !! a with
  | S f, Some e =>
      let clone_items :=
        fix go (h : Heap) (its : list addr) : Heap * list addr :=
          match its with
          | [] => (h, [])
          | x :: r =>
              let '(h1, x') := deep_clone f h x in
              let '(h2, r') := go h1 r in
              (h2, x' :: r')
          end in
      let clone_value (h : Heap) (v : value) : Heap * value :=
        match v with
        | VListing l =>
            match lsts h !! l with
            | Some its =>
                let '(h1, its') := clone_items h its in
                (alloc h1 [] [its'], VListing (length (lsts h1)))
            | None => (h, v)
            end
        | _ => (h, v)
        end in
      let clone_fields :=
        fix go (h : Heap) (o : props) : Heap * props :=
          match o with
          | [] => (h, [])
          | (k, v) :: o' =>
              let '(h1, v') := clone_value h v in
              let '(h2, o'') := go h1 o' in
              (h2, (k, v') :: o'')
          end in
      let '(h1, o) := clone_fields h (fields e) in
      (alloc h1 [ {| _name := _name e; fields := o |} ] [], length (ents h1))
  | _, _ => (h, a)
  end.

(** ** The one-shot actions [distinguish] and [undistinguish], lines 89-105 *)

Record Request : Type := mkRequest {
  url : string;
  form : list (string * value)
}.

Definition api_type : string := "json".

(** [{status = true, sticky = false} = {}] *)
Record DistinguishOptions : Type := mkDistinguishOptions {
  status : option value;
  sticky : option value
}.

Section OneShot.

(** [this._post], of the requester: the answer to a request. *)
Variable _post : Request -> option error.

(** [status === true ? 'yes' : status === false ? 'no' : status] *)
Definition how (status : value) : value :=
  match status with
  | VBool true => VStr "yes"
  | VBool false => VStr "no"
  | v => v
  end.

(** A destructured option with a default: the default stands for a
    property that is missing or [undefined]. *)
Definition or_default (d : value) (v : option value) : value :=
  match v with
  | None | Some VUndefined => d
  | Some v' => v'
  end.

(** The request sent, and the promise once it is answered. *)
Definition distinguish (h : Heap) (this : addr) (options : option DistinguishOptions)
  : Request * promise :=
  let o := default {| status := None; sticky := None |} options in
  let req :=
    {| url := "api/distinguish";
       form := [ ("api_type", VStr api_type);
                 ("how", how (or_default (VBool true) (status o)));
                 ("sticky", or_default (VBool false) (sticky o));
                 ("id", default VUndefined (get_field h this "name")) ] |} in
  (req, match _post req with
        | None => Fulfilled this
        | Some e => Rejected e
        end).

Definition undistinguish (h : Heap) (this : addr) : Request * promise :=
  distinguish h this
    (Some {| status := Some (VBool false); sticky := Some (VBool false) |}).

End OneShot.

(** ** The other one-shot actions, lines 18-75, 112-149 and 205-208 *)

Section Actions.

(** The parsed body of an answer. *)
Variable Response : Type.

(** [this._post], of the requester: a failure, or the body of the answer. *)
Variable _post : Request -> error + Response.

(** [handleJsonErrors], of the helpers, is not in the sources: called on
    the body, it throws ([Some]) or returns; what it returns is dropped. *)
Variable handleJsonErrors : Response -> option error.

(** The string a value has in a template literal. *)
Variable to_string : value -> string.

(** [this.name] *)
Definition this_name (h : Heap) (this : addr) : value :=
  default VUndefined (get_field h this "name").

(** [await this._post(req); return this;] with the request that was sent. *)
Definition post_then_this (this : addr) (req : Request) : Request * promise :=
  (req, match _post req with
        | inr _ => Fulfilled this
        | inl e => Rejected e
        end).

Definition _vote (h : Heap) (this : addr) (direction : Z) : Request * promise :=
  post_then_this this
    {| url := "api/vote"; form := [("dir", VNum direction); ("id", this_name h this)] |}.

Definition upvote (h : Heap) (this : addr) : Request * promise := _vote h this 1.

Definition downvote (h : Heap) (this : addr) : Request * promise := _vote h this (-1).

Definition unvote (h : Heap) (this : addr) : Request * promise := _vote h this 0.

Definition save (h : Heap) (this : addr) : Request * promise :=
  post_then_this this {| url := "api/save"; form := [("id", this_name h this)] |}.

Definition unsave (h : Heap) (this : addr) : Request * promise :=
  post_then_this this {| url := "api/unsave"; form := [("id", this_name h this)] |}.

(** [edit]: the body of the answer goes through [handleJsonErrors] before
    the entity is returned. *)
Definition edit (h : Heap) (this : addr) (updatedText : value) : Request * promise :=
  let req :=
    {| url := "api/editusertext";
       form := [ ("api_type", VStr api_type); ("text", updatedText);
                 ("thing_id", this_name h this) ] |} in
  (req, match _post req with
        | inl e => Rejected e
        | inr res =>
            match handleJsonErrors res with
            | Some e => Rejected e
            | None => Fulfilled this
            end
        end).

(** [gild]: the request has no form, which is the empty form here. *)
Definition gild (h : Heap) (this : addr) : Request * promise :=
  post_then_this this
    {| url := "api/v1/gold/gild/" ++ to_string (this_name h this); form := [] |}.

(** [_setInboxRepliesEnabled] returns the promise of [_post] itself. *)
Definition _setInboxRepliesEnabled (h : Heap) (this : addr) (state : bool)
  : Request * (error + Response) :=
  let req :=
    {| url := "api/sendreplies";
       form := [("state", VBool state); ("id", this_name h this)] |} in
  (req, _post req).

Definition enableInboxReplies (h : Heap) (this : addr) : Request * promise :=
  let '(req, res) := _setInboxRepliesEnabled h this true in
  (req, match res with inr _ => Fulfilled this | inl e => Rejected e end).

Definition disableInboxReplies (h : Heap) (this : addr) : Request * promise :=
  let '(req, res) := _setInboxRepliesEnabled h this false in
  (req, match res with inr _ => Fulfilled this | inl e => Rejected e end).

(** [VoteableContent.prototype.delete] *)
Definition delete_ (h : Heap) (this : addr) : Request * promise :=
  post_then_this this {| url := "api/del"; form := [("id", this_name h this)] |}.

End Actions.

(** What a requester says of a request when the body is dropped: the
    requester [distinguish] is given. *)
Definition outcome {Response : Type} (_post : Request -> error + Response)
  : Request -> option error :=
  fun req => match _post req with inl e => Some e | inr _ => None end.

(** * The vocabulary of the properties *)

(** ** Requests and calls *)

(** [t] is the request a call of the recursive step, numbered [id], on
    [this] with [(lim, dep)] leaves in flight in the store [h]. *)
Definition spawned_by (h : Heap) (id : nat) (this : addr) (lim dep : num) (t : Task) : Prop :=
  t_call t = id /\ t_this t = this /\ t_limit t = lim /\ t_depth t = dep /\
  num_le0 dep = false /\
  exists e items,
    ents h !! this = Some e /\ t_key t = repliesKey e /\
    prop_get (repliesKey e) (fields e) = Some (VListing (t_listing t)) /\
    lsts h !! t_listing t = Some items /\
    t_amount t = num_sub_len lim (length items).

(** The receiver and the arguments of a call. *)
Definition call_args (c : Call) : nat * num * num := (c_this c, c_limit c, c_depth c).

Definition is_entity (h : Heap) (a : addr) : bool := a <? length (ents h).

Definition items_of (h : Heap) (l : laddr) : list addr := default [] (lsts h !! l).

Section Traces.

Variable _clone : Heap -> addr -> Heap * addr.

(** [trace_ok check s tr]: every answer of the trace [tr], played from [s],
    passes [check] in the state it arrives in. *)
Fixpoint trace_ok (check : State -> event -> bool) (s : State) (tr : list event) : bool :=
  match tr with
  | [] => true
  | ev :: tr' => check s ev && trace_ok check (step _clone s ev) tr'
  end.

End Traces.

(** ** Termination *)




(** ** The side of the caller and the side of the clone *)

(** An object is on the side of the clone when every reference it holds is
    to an object made by the clone or after it: entities from [n] on,
    Listings from [m] on. *)
Definition value_fresh (m : nat) (v : value) : bool :=
  match v with
  | VListing l => m <=? l
  | _ => true
  end.

Definition ent_fresh (m : nat) (e : Entity) : bool :=
  forallb (fun kv => value_fresh m kv.2) (fields e).

Definition lst_fresh (n : nat) (l : Listing) : bool :=
  forallb (fun a => n <=? a) l.

(** The objects from [n] and [m] on refer to each other only. *)
Definition closed (n m : nat) (h : Heap) : bool :=
  forallb (ent_fresh m) (drop n (ents h)) && forallb (lst_fresh n) (drop m (lsts h)).

(** An answer of Fetch-more that stays on the side of the clone: the
    Listing is not one of the caller's, and the new objects refer to the
    clone's objects and to each other. *)
Definition response_fresh (n m : nat) (r : fm_response) : bool :=
  match r with
  | FmFail _ => true
  | FmOk new_ents new_lsts l =>
      forallb (ent_fresh m) new_ents && forallb (lst_fresh n) new_lsts && (m <=? l)
  end.

Definition event_fresh (n m : nat) (ev : event) : bool :=
  match ev with
  | FetchDone _ => true
  | FetchMoreDone _ r => response_fresh n m r
  end.

(** What holds of the store while the clone is expanded: the part the
    caller had is as it was, the rest is closed, and the suspended
    activations are on entities of the clone. *)
Definition frame_inv (h : Heap) (s : State) : Prop :=
  let n := length (ents h) in
  let m := length (lsts h) in
  take n (ents (heap s)) = ents h /\
  take m (lsts (heap s)) = lsts h /\
  closed n m (heap s) = true /\
  Forall (fun t => n <= t_this t) (pending s).

(** Before the answer of [this.fetch()] nothing has been done; after it
    the clone is in the store and [frame_inv] holds. *)
Definition frame_loop_inv (h : Heap) (E : addr) (s : State) : Prop :=
  match stage s with
  | AwaitingFetch this _ _ => this = E /\ heap s = h /\ pending s = []
  | _ => frame_inv h s
  end.

(** ** Replies that are kept *)

(** [subseqb l1 l2]: the items of [l1] are among those of [l2], in the same
    order. *)
Fixpoint subseqb (l1 l2 : list nat) : bool :=
  match l2 with
  | [] => match l1 with [] => true | _ :: _ => false end
  | y :: r2 =>
      match l1 with
      | [] => true
      | x :: r1 => if x =? y then subseqb r1 r2 else subseqb l1 r2
      end
  end.

(** The contract of Fetch-more on an answer: it is a Listing, and it holds
    every item of the Listing it was asked about, in the same order. *)
Definition keeps_items (s : State) (ev : event) : bool :=
  match ev with
  | FetchMoreDone i (FmOk new_ents new_lsts l) =>
      match pending s !! i with
      | Some t =>
          match (lsts (heap s) ++ new_lsts) !! l with
          | Some items' => subseqb (items_of (heap s) (t_listing t)) items'
          | None => false
          end
      | None => true
      end
  | _ => true
  end.

(** Every Listing holds entities of the store. *)
Definition wf_items (h : Heap) : bool :=
  forallb (forallb (fun a => a <? length (ents h))) (lsts h).

(** What holds of the store, compared with the store [h1] the clone was made
    in: an entity has the children it had in [h1], in order, among its
    children; the Listing a suspended activation asked about holds them too;
    and an entity of [h1] has kept its kind and its [name]. *)
Definition kept_inv (h1 : Heap) (s : State) : Prop :=
  (forall x, sublist (children h1 x) (children (heap s) x)) /\
  Forall (fun t => exists e its,
            ents (heap s) !! t_this t = Some e /\ t_key t = repliesKey e /\
            lsts (heap s) !! t_listing t = Some its /\
            sublist (children h1 (t_this t)) its) (pending s) /\
  (forall x e, ents h1 !! x = Some e ->
     exists e', ents (heap s) !! x = Some e' /\ _name e' = _name e /\
                prop_get "name" (fields e') = prop_get "name" (fields e)).

(** The first call is the call on the clone [c]: its promise, once
    fulfilled, holds [c]. *)
Definition root_inv (c : addr) (s : State) : Prop :=
  0 < length (calls s) /\
  Forall (fun t => t_call t = 0 -> t_this t = c) (pending s) /\
  (forall call r, calls s !! 0 = Some call -> c_promise call = Fulfilled r -> r = c).

Definition expanding_inv (h1 : Heap) (c : addr) (s : State) : Prop :=
  stage s = Expanding /\ kept_inv h1 s /\ root_inv c s.

(** The promise of the first call is fulfilled with [c], and no suspended
    activation is left to settle it again. *)
Definition root_fulfilled (c : addr) (s : State) : Prop :=
  stage s = Expanding /\
  (exists call, calls s !! 0 = Some call /\ c_promise call = Fulfilled c) /\
  Forall (fun t => t_call t <> 0) (pending s).

(** ** Calls and writes *)

(** With [depth <= 0] nothing is ever asked of a Listing. *)
Definition idle_inv (dep : num) (s : State) : Prop :=
  requests s = [] /\ pending s = [] /\
  match stage s with
  | AwaitingFetch _ _ d => d = dep
  | _ => True
  end.

(** A suspended activation is the activation of a logged call on an entity,
    and its key is the key of the entity's kind. *)
Definition tasks_inv (s : State) : Prop :=
  Forall (fun t => t_this t ∈ map c_this (calls s) /\
                   exists e, ents (heap s) !! t_this t = Some e /\ t_key t = repliesKey e)
         (pending s).

(** After the clone is made: an entity of the clone's store on which the
    recursive step has not been called is what it was in that store. *)
Definition log_inv (h1 : Heap) (s : State) : Prop :=
  (stage s = Expanding \/ pending s = [] /\ exists e, stage s = Failed e) /\
  tasks_inv s /\
  (forall a e, ents h1 !! a = Some e -> a ∉ map c_this (calls s) ->
               ents (heap s) !! a = Some e).

(** ** A thread to run the expansion on *)

Definition comment (nm : string) (l : laddr) : Entity :=
  {| _name := "Comment"; fields := [("name", VStr nm); ("replies", VListing l)] |}.


(** A comment with two replies, neither with replies of its own loaded.
    Its deep clone is the entity 5, with the Listing 5 of the replies 3
    and 4. *)
Definition thread : Heap :=
  {| ents := [comment "t1_root" 0; comment "t1_a" 1; comment "t1_b" 2];
     lsts := [[1; 2]; []; []] |}.


(** [{limit: l, depth: d}] *)
Definition budget (l d : Z) : ExpandOptions :=
  {| limit := Some (Fin l); depth := Some (Fin d) |}.

(** The answer to the request of the clone of the root, when nothing more
    is fetched: a new Listing with the two replies it held. *)
Definition same_replies : fm_response := FmOk [] [[3; 4]] 6.

(** The answer with one more reply, [t1_c], at the end. *)
Definition one_more_reply : fm_response := FmOk [comment "t1_c" 7] [[3; 4; 6]; []] 6.

(** The answer to the request of the reply 3 (after [same_replies]): a
    Listing with one reply, [t1_c]. *)
Definition late_reply : fm_response := FmOk [comment "t1_c" 8] [[6]; []] 7.

(** A run after the clone is made: one more reply for the root, a failure
    for the reply 4, a reply for the reply 3. *)
Definition sample_run : list event :=
  [ FetchMoreDone 0 one_more_reply;
    FetchMoreDone 1 (FmFail (ServiceError 503));
    FetchMoreDone 0 (FmOk [comment "t1_d" 9] [[7]; []] 8) ].

(** ** The Listing of a node, and budgets of requests *)

(** The Listing in the children field of [a], with its items, when the
    field holds one. *)
Definition field_listing (h : Heap) (a : addr) : option (nat * list nat) :=
  match ents h !! a with
  | Some e =>
      match prop_get (repliesKey e) (fields e) with
      | Some (VListing l) =>
          match lsts h !! l with
          | Some items => Some (l, items)
          | None => None
          end
      | _ => None
      end
  | None => None
  end.

(** [request_bound L D] is [1 + L + ... + L^(D-1)]. *)
Fixpoint request_bound (L D : nat) : nat :=
  match D with
  | 0 => 0
  | S D' => 1 + L * request_bound L D'
  end.



(** Every call so far has the limit [lim] and a depth from 0 to [d]. *)
Definition args_inv (lim : num) (d : Z) (s : State) : Prop :=
  Forall (fun c => c.1.2 = lim /\ exists k, c.2 = Fin k /\ (0 <= k <= d)%Z)
         (map call_args (calls s)) /\
  Forall (fun t => t_limit t = lim /\ exists k, t_depth t = Fin k /\ (0 < k <= d)%Z)
         (pending s).

(** With a depth of at most one: either the call on the clone waits alone
    for its request, or nothing waits and every call is settled. *)
Definition shallow_inv (dep : num) (s : State) : Prop :=
  (stage s = Expanding /\
   exists t c, pending s = [t] /\ t_call t = 0 /\ t_depth t = dep /\
               calls s = [c] /\ c_promise c = Pending) \/
  (pending s = [] /\ Forall (fun c => c_promise c <> Pending) (calls s)).

(** The limit lets a first item through [slice(0, limit)]. *)
Definition admits_one (lim : num) : bool :=
  match lim with
  | Inf => true
  | Fin z => (1 <=? z)%Z
  end.

(** An activation with the depth [Infinity], on an entity of the store,
    whose limit lets a first item through. *)
Definition endless (t : Task) (s : State) : Prop :=
  t_depth t = Inf /\ t_this t < length (ents (heap s)) /\ admits_one (t_limit t) = true.

(** An entity of [h1] has its kind, and each of its fields but the
    children field, as in [h1]. *)
Definition fields_inv (h1 : Heap) (s : State) : Prop :=
  forall a e, ents h1 !! a = Some e ->
    exists e', ents (heap s) !! a = Some e' /\ _name e' = _name e /\
               forall k, k <> repliesKey e -> prop_get k (fields e') = prop_get k (fields e).

(** Before the answer of [this.fetch()] the state is the one of the call;
    after it the first call is the call on the clone [c]. *)
Definition result_inv (start : State) (c : addr) (s : State) : Prop :=
  match stage s with
  | AwaitingFetch _ _ _ => s = start
  | Expanding => root_inv c s
  | Failed _ => True
  end.

(** [I] holds once [this.fetch()] is answered; before, the state is the
    one of the call. *)
Definition from_start (start : State) (I : State -> Prop) (s : State) : Prop :=
  match stage s with
  | AwaitingFetch _ _ _ => s = start
  | _ => I s
  end.

(** ** More data to run the model on *)

(** A Submission whose replies are in a field named [replies]: it has no
    [comments]. *)
Definition odd_post : Heap :=
  {| ents := [ {| _name := "Submission";
                  fields := [("name", VStr "t3_odd"); ("replies", VListing 0)] |} ];
     lsts := [[]] |}.

(** A requester that fails on votes and answers [true] to the rest, and one
    that fails on votes alike and answers with a number. *)
Definition strict_requester (req : Request) : error + bool :=
  if String.eqb (url req) "api/vote" then inl (ServiceError 403) else inr true.

Definition numbering_requester (req : Request) : error + nat :=
  if String.eqb (url req) "api/vote" then inl (ServiceError 403)
  else inr (length (form req)).

(** The string of a value in a template literal, for strings, booleans and
    [undefined]; the other values are not needed by the examples and are
    left blank. *)
Definition template_string (v : value) : string :=
  match v with
  | VStr s => s
  | VUndefined => "undefined"
  | VBool true => "true"
  | VBool false => "false"
  | _ => ""
  end.

(** * Properties *)

(** ** Numbers and slices *)

(** Both options default to [Infinity]. *)
Example expandReplies_defaults (this : addr) (h : Heap) :
  stage (expandReplies this no_options h) = AwaitingFetch this Inf Inf.
Proof. reflexivity. Qed.

Lemma slice0_fin_nonneg {A : Type} (z : Z) (l : list A) :
  (0 <= z)%Z -> slice0 (Fin z) l = take (Z.to_nat z) l.
Proof.
  intros Hz. unfold slice0.
  destruct (Z.ltb_spec z 0) as [Hlt | _]; [lia |].
  destruct (Z.le_gt_cases z (Z.of_nat (length l))) as [Hle | Hgt].
  - now rewrite Z.min_l.
  - rewrite Z.min_r, Nat2Z.id by lia.
    rewrite !take_ge; [reflexivity | lia | lia].
Qed.

Lemma slice0_sublist {A : Type} (n : num) (l : list A) : sublist (slice0 n l) l.
Proof.
  destruct n as [z |]; simpl; [| reflexivity].
  destruct (z <? 0)%Z; apply sublist_take.
Qed.

Lemma slice0_elem {A : Type} (n : num) (l : list A) (x : A) :
  x ∈ slice0 n l -> x ∈ l.
Proof. intros Hx. eapply elem_of_sublist; [exact Hx | apply slice0_sublist]. Qed.


(** ** Properties and fields *)

Lemma prop_get_set_eq (k : string) (v : value) (o : props) :
  prop_get k (prop_set k v o) = Some v.
Proof.
  induction o as [| [k' v'] o IH]; simpl.
  - now rewrite String.eqb_refl.
  - destruct (String.eqb k k') eqn:Hk; simpl.
    + now rewrite String.eqb_refl.
    + now rewrite Hk.
Qed.

Lemma prop_get_set_ne (k k' : string) (v : value) (o : props) :
  k' <> k -> prop_get k' (prop_set k v o) = prop_get k' o.
Proof.
  intros Hne. induction o as [| [k0 v0] o IH]; simpl.
  - destruct (String.eqb_spec k' k); [contradiction | reflexivity].
  - destruct (String.eqb_spec k k0) as [-> | Hk0]; simpl.
    + destruct (String.eqb_spec k' k0); [contradiction | reflexivity].
    + now rewrite IH.
Qed.

Lemma repliesKey_cases (e : Entity) :
  repliesKey e = "comments" \/ repliesKey e = "replies".
Proof. unfold repliesKey. destruct (String.eqb _ _); auto. Qed.

Lemma repliesKey_not_name (e : Entity) : "name" <> repliesKey e.
Proof. destruct (repliesKey_cases e) as [-> | ->]; discriminate. Qed.

(** ** What one activation does to the state *)

Lemma mutate_heap this lim dep s :
  heap (_mutateAndExpandReplies this lim dep s).1 = heap s.
Proof.
  unfold _mutateAndExpandReplies.
  repeat case_match; reflexivity.
Qed.

Lemma mutate_stage this lim dep s :
  stage (_mutateAndExpandReplies this lim dep s).1 = stage s.
Proof.
  unfold _mutateAndExpandReplies.
  repeat case_match; reflexivity.
Qed.

Lemma mutate_calls this lim dep s :
  exists p, calls (_mutateAndExpandReplies this lim dep s).1
            = calls s ++ [ {| c_this := this; c_limit := lim; c_depth := dep; c_promise := p |} ]
            /\ (forall r, p = Fulfilled r -> r = this).
Proof.
  unfold _mutateAndExpandReplies.
  repeat case_match; simpl; eexists; (split; [reflexivity |]); congruence.
Qed.

Lemma mutate_tasks this lim dep s :
  Forall (spawned_by (heap s) (length (calls s)) this lim dep)
         (_mutateAndExpandReplies this lim dep s).2.
Proof.
  unfold _mutateAndExpandReplies.
  destruct (num_le0 dep) eqn:Hd; [constructor |].
  destruct (ents (heap s) !! this) as [e |] eqn:He; [| constructor].
  destruct (prop_get (repliesKey e) (fields e)) as [[| | | | l] |] eqn:Hk;
    try constructor.
  destruct (lsts (heap s) !! l) as [items |] eqn:Hl; constructor; [| constructor].
  unfold spawned_by; simpl.
  do 5 (split; [first [reflexivity | assumption] |]).
  exists e, items. auto.
Qed.

Lemma mutate_base this lim dep s :
  num_le0 dep = true ->
  _mutateAndExpandReplies this lim dep s
  = (push_call {| c_this := this; c_limit := lim; c_depth := dep;
                  c_promise := Fulfilled this |} s, []).
Proof. intros Hd. unfold _mutateAndExpandReplies. now rewrite Hd. Qed.

Lemma map_calls_heap targets lim dep s :
  heap (map_calls targets lim dep s).1.1 = heap s.
Proof.
  revert s. induction targets as [| r rest IH]; intros s; simpl; [reflexivity |].
  destruct (ents (heap s) !! r); [| reflexivity].
  destruct (_mutateAndExpandReplies r lim dep s) as [s1 ts1] eqn:Hm.
  specialize (IH s1).
  destruct (map_calls rest lim dep s1) as [[s2 ts2] ok]; simpl in *.
  rewrite IH. change s1 with (s1, ts1).1. rewrite <- Hm. apply mutate_heap.
Qed.

Lemma map_calls_stage targets lim dep s :
  stage (map_calls targets lim dep s).1.1 = stage s.
Proof.
  revert s. induction targets as [| r rest IH]; intros s; simpl; [reflexivity |].
  destruct (ents (heap s) !! r); [| reflexivity].
  destruct (_mutateAndExpandReplies r lim dep s) as [s1 ts1] eqn:Hm.
  specialize (IH s1).
  destruct (map_calls rest lim dep s1) as [[s2 ts2] ok]; simpl in *.
  rewrite IH. change s1 with (s1, ts1).1. rewrite <- Hm. apply mutate_stage.
Qed.

Lemma mutate_calls_length this lim dep s :
  length (calls (_mutateAndExpandReplies this lim dep s).1) = S (length (calls s)).
Proof.
  destruct (mutate_calls this lim dep s) as (p & -> & _).
  rewrite length_app. simpl. lia.
Qed.

Lemma map_calls_calls targets lim dep s :
  exists more, calls (map_calls targets lim dep s).1.1 = calls s ++ more.
Proof.
  revert s. induction targets as [| r rest IH]; intros s; simpl.
  - exists []. now rewrite app_nil_r.
  - destruct (ents (heap s) !! r); [| exists []; now rewrite app_nil_r].
    destruct (mutate_calls r lim dep s) as (p & Hp & _).
    destruct (_mutateAndExpandReplies r lim dep s) as [s1 ts1].
    destruct (IH s1) as [more Hmore].
    destruct (map_calls rest lim dep s1) as [[s2 ts2] ok]; simpl in *.
    rewrite Hmore, Hp, <- app_assoc. eauto.
Qed.

(** Every request of the map is the request of a call on one of the
    targets, with the limit and the depth the map was given. *)
Lemma map_calls_tasks targets lim dep s :
  Forall (fun t => exists id, length (calls s) <= id /\ t_this t ∈ targets /\
                     spawned_by (heap s) id (t_this t) lim dep t)
         (map_calls targets lim dep s).1.2.
Proof.
  revert s. induction targets as [| r rest IH]; intros s; simpl; [constructor |].
  destruct (ents (heap s) !! r); [| constructor].
  pose proof (mutate_tasks r lim dep s) as Hts.
  pose proof (mutate_heap r lim dep s) as Hh.
  pose proof (mutate_calls_length r lim dep s) as Hlen.
  destruct (_mutateAndExpandReplies r lim dep s) as [s1 ts1].
  specialize (IH s1).
  destruct (map_calls rest lim dep s1) as [[s2 ts2] ok]; simpl in *.
  apply Forall_app. split.
  - eapply Forall_impl; [exact Hts |]. intros t Ht.
    assert (t_this t = r) as Hr by (destruct Ht as (_ & ? & _); assumption).
    exists (length (calls s)). rewrite Hr. split; [lia |]. split; [left |]. exact Ht.
  - eapply Forall_impl; [exact IH |]. intros t (id & Hid & Hin & Ht).
    exists id. split; [lia |]. split; [now right |]. now rewrite <- Hh.
Qed.

Lemma resume_heap t r s :
  heap (resume t r s).1
  = match r with
    | FmFail _ => heap s
    | FmOk new_ents new_lsts l =>
        set_field (t_this t) (t_key t) (VListing l) (alloc (heap s) new_ents new_lsts)
    end.
Proof.
  destruct r as [e | ne nl l]; [reflexivity |].
  unfold resume. set (s1 := with_heap _ s).
  destruct (lsts (heap s1) !! l) as [items |]; [| reflexivity].
  pose proof (map_calls_heap (slice0 (t_limit t) items) (t_limit t)
                (num_pred (t_depth t)) s1) as Hh.
  destruct (map_calls _ _ _ s1) as [[s2 ts] ok]. exact Hh.
Qed.

Lemma resume_stage t r s : stage (resume t r s).1 = stage s.
Proof.
  destruct r as [e | ne nl l]; [reflexivity |].
  unfold resume. set (s1 := with_heap _ s).
  destruct (lsts (heap s1) !! l) as [items |]; [| reflexivity].
  pose proof (map_calls_stage (slice0 (t_limit t) items) (t_limit t)
                (num_pred (t_depth t)) s1) as Hh.
  destruct (map_calls _ _ _ s1) as [[s2 ts] ok]. exact Hh.
Qed.

(** The requests of a continuation: one for each of the first [limit] items
    of the Listing that was answered, as far as the call on the item gets
    to its [await]; the calls have the same limit and the depth less one. *)
Lemma resume_tasks t r s :
  Forall (fun t' => exists id new_ents new_lsts l items,
            length (calls s) <= id /\
            r = FmOk new_ents new_lsts l /\
            lsts (heap (resume t r s).1) !! l = Some items /\
            t_this t' ∈ slice0 (t_limit t) items /\
            spawned_by (heap (resume t r s).1) id (t_this t')
                       (t_limit t) (num_pred (t_depth t)) t')
         (resume t r s).2.
Proof.
  rewrite resume_heap.
  destruct r as [e | ne nl l]; [constructor |].
  unfold resume. set (s1 := with_heap _ s).
  change (set_field _ _ _ _) with (heap s1).
  destruct (lsts (heap s1) !! l) as [items |] eqn:Hl; [| constructor].
  pose proof (map_calls_tasks (slice0 (t_limit t) items) (t_limit t)
                (num_pred (t_depth t)) s1) as Hts.
  destruct (map_calls _ _ _ s1) as [[s2 ts] ok].
  eapply Forall_impl; [exact Hts |]. intros t' (id & Hid & Hin & Ht').
  exists id, ne, nl, l, items. auto.
Qed.

Lemma resume_calls t r s :
  exists more p,
    calls (resume t r s).1 = alter (with_promise p) (t_call t) (calls s ++ more) /\
    (forall r0, p = Fulfilled r0 -> r0 = t_this t).
Proof.
  destruct r as [e | ne nl l].
  - exists [], (Rejected e). simpl. rewrite app_nil_r. split; [reflexivity | congruence].
  - unfold resume. set (s1 := with_heap _ s).
    destruct (lsts (heap s1) !! l) as [items |].
    + destruct (map_calls_calls (slice0 (t_limit t) items) (t_limit t)
                  (num_pred (t_depth t)) s1) as [more Hmore].
      destruct (map_calls _ _ _ s1) as [[s2 ts] ok]. simpl in *.
      exists more. eexists. rewrite Hmore. split; [reflexivity |].
      destruct ok; congruence.
    + exists [], (Rejected TypeError). simpl. rewrite app_nil_r.
      split; [reflexivity | congruence].
Qed.

Section Loop.

Variable _clone : Heap -> addr -> Heap * addr.

Lemma step_fetchMore s i r t :
  stage s = Expanding -> pending s !! i = Some t ->
  step _clone s (FetchMoreDone i r)
  = with_pending (take i (pending s) ++ (resume t r s).2 ++ drop (S i) (pending s))
                 (resume t r s).1.
Proof.
  intros Hst Hi. unfold step. rewrite Hst, Hi.
  now destruct (resume t r s).
Qed.

Lemma step_unexpected s ev : expected s ev = false -> step _clone s ev = s.
Proof.
  unfold expected, step. destruct ev as [r | i r], (stage s); try discriminate; auto.
  intros Hi. apply bool_decide_eq_false in Hi.
  rewrite lookup_ge_None_2; [reflexivity | lia].
Qed.

(** A property kept by every turn of the loop holds after any trace. *)
Lemma exec_invariant (I : State -> Prop) (P : event -> Prop) :
  (forall s ev, I s -> P ev -> I (step _clone s ev)) ->
  forall tr s, I s -> Forall P tr -> I (exec _clone s tr).
Proof.
  intros Hstep tr. induction tr as [| ev tr IH]; intros s Hs Htr; simpl; [exact Hs |].
  inversion Htr; subst. apply IH; auto.
Qed.

End Loop.

(** ** The store only grows, and Listings are never written *)

Lemma set_field_lsts a k v h : lsts (set_field a k v h) = lsts h.
Proof. unfold set_field. now destruct (ents h !! a). Qed.

Lemma set_field_length a k v h : length (ents (set_field a k v h)) = length (ents h).
Proof.
  unfold set_field. destruct (ents h !! a); [| reflexivity].
  simpl. apply length_insert.
Qed.

Lemma set_field_other a k v h b : b <> a -> ents (set_field a k v h) !! b = ents h !! b.
Proof.
  intros Hne. unfold set_field. destruct (ents h !! a); [| reflexivity].
  simpl. apply list_lookup_insert_ne. auto.
Qed.

Lemma set_field_same a k v h e :
  ents h !! a = Some e ->
  ents (set_field a k v h) !! a
  = Some {| _name := _name e; fields := prop_set k v (fields e) |}.
Proof.
  intros He. unfold set_field. rewrite He. simpl.
  apply list_lookup_insert_eq. eapply lookup_lt_Some; eauto.
Qed.

Lemma set_field_none a k v h : ents h !! a = None -> set_field a k v h = h.
Proof. intros He. unfold set_field. now rewrite He. Qed.

Lemma resume_lsts t r s l items :
  lsts (heap s) !! l = Some items -> lsts (heap (resume t r s).1) !! l = Some items.
Proof.
  intros Hl. rewrite resume_heap. destruct r as [e | ne nl l']; [exact Hl |].
  rewrite set_field_lsts. simpl. now apply lookup_app_l_Some.
Qed.

(** ** Termination *)




Section Termination.

Variable _clone : Heap -> addr -> Heap * addr.





End Termination.

(** ** The entity of the caller is not written *)

Lemma forallb_lookup {A : Type} (f : A -> bool) (l : list A) :
  forallb f l = true <-> forall i x, l !! i = Some x -> f x = true.
Proof.
  rewrite forallb_forall. split.
  - intros H i x Hi. apply H. apply list_elem_of_In. eapply list_elem_of_lookup_2; eauto.
  - intros H x Hx. apply list_elem_of_In, list_elem_of_lookup_1 in Hx as [i Hi]. eauto.
Qed.

Lemma forallb_drop_lookup {A : Type} (f : A -> bool) (n : nat) (l : list A) :
  forallb f (drop n l) = true <-> forall i x, n <= i -> l !! i = Some x -> f x = true.
Proof.
  rewrite forallb_lookup. split.
  - intros H i x Hn Hi. apply (H (i - n)). rewrite lookup_drop.
    now replace (n + (i - n)) with i by lia.
  - intros H i x Hi. rewrite lookup_drop in Hi. eapply H; [| exact Hi]. lia.
Qed.

Lemma closed_spec n m h :
  closed n m h = true <->
  (forall a e, n <= a -> ents h !! a = Some e -> ent_fresh m e = true) /\
  (forall l its, m <= l -> lsts h !! l = Some its -> lst_fresh n its = true).
Proof.
  unfold closed. rewrite andb_true_iff, !forallb_drop_lookup. reflexivity.
Qed.

Lemma ent_fresh_set m k l o :
  forallb (fun kv => value_fresh m kv.2) o = true -> m <= l ->
  forallb (fun kv : string * value => value_fresh m kv.2) (prop_set k (VListing l) o) = true.
Proof.
  intros Ho Hl. induction o as [| [k' v'] o IH]; simpl in *.
  - rewrite andb_true_r. now apply Nat.leb_le.
  - apply andb_true_iff in Ho as [Hv Ho].
    destruct (String.eqb k k'); simpl.
    + rewrite Ho, andb_true_r. now apply Nat.leb_le.
    + now rewrite Hv, IH.
Qed.

Lemma take_all_le {A : Type} (n : nat) (l k : list A) :
  take n l = k -> n = length k -> n <= length l.
Proof.
  intros Ht Hn. apply (f_equal length) in Ht. rewrite length_take in Ht. lia.
Qed.

Lemma frame_inv_resume h s t r :
  frame_inv h s -> length (ents h) <= t_this t ->
  response_fresh (length (ents h)) (length (lsts h)) r = true ->
  frame_inv h (with_pending [] (resume t r s).1) /\
  Forall (fun t' => length (ents h) <= t_this t') (resume t r s).2.
Proof.
  intros (Hents & Hlsts & Hcl & Hpend) Hthis Hr.
  set (n := length (ents h)) in *. set (m := length (lsts h)) in *.
  pose proof (take_all_le _ _ _ Hents eq_refl) as Hn.
  pose proof (take_all_le _ _ _ Hlsts eq_refl) as Hm.
  pose proof (resume_tasks t r s) as Hts.
  assert (take n (ents (heap (resume t r s).1)) = ents h /\
          take m (lsts (heap (resume t r s).1)) = lsts h /\
          closed n m (heap (resume t r s).1) = true) as (H1 & H2 & H3).
  { rewrite resume_heap. destruct r as [e | ne nl l]; [auto |].
    simpl in Hr. apply andb_true_iff in Hr as [Hr Hl].
    apply andb_true_iff in Hr as [Hne Hnl]. apply Nat.leb_le in Hl.
    apply closed_spec in Hcl as [Hce Hcl].
    rewrite forallb_lookup in Hne. rewrite forallb_lookup in Hnl.
    assert (forall a e, n <= a -> ents (alloc (heap s) ne nl) !! a = Some e ->
                        ent_fresh m e = true) as Hce'.
    { intros a e Ha He. simpl in He. apply lookup_app_Some in He as [He | [_ He]]; eauto. }
    rewrite set_field_lsts. split; [| split].
    - unfold set_field. destruct (ents (alloc (heap s) ne nl) !! t_this t); simpl.
      + rewrite take_insert_ge by exact Hthis. now rewrite take_app_le.
      + now rewrite take_app_le.
    - simpl. now rewrite take_app_le.
    - apply closed_spec. rewrite set_field_lsts. split.
      + intros a e Ha He. destruct (decide (a = t_this t)) as [-> | Hne'].
        * destruct (ents (alloc (heap s) ne nl) !! t_this t) as [e0 |] eqn:He0.
          -- rewrite (set_field_same _ _ _ _ _ He0) in He. injection He as <-.
             unfold ent_fresh. simpl. apply ent_fresh_set; [| exact Hl].
             apply (Hce' _ _ Hthis He0).
          -- rewrite (set_field_none _ _ _ _ He0) in He. eauto.
        * rewrite set_field_other in He by exact Hne'. eauto.
      + intros l0 its Hl0 Hits. simpl in Hits.
        apply lookup_app_Some in Hits as [Hits | [_ Hits]]; eauto. }
  split.
  - unfold frame_inv. simpl. fold n m. auto.
  - eapply Forall_impl; [exact Hts |].
    intros t' (id & ne & nl & l & items & _ & -> & Hitems & Hin & _).
    simpl in Hr. apply andb_true_iff in Hr as [_ Hl]. apply Nat.leb_le in Hl.
    apply closed_spec in H3 as [_ H3].
    specialize (H3 _ _ Hl Hitems). unfold lst_fresh in H3.
    rewrite forallb_forall in H3. apply Nat.leb_le. apply H3.
    apply list_elem_of_In. eapply slice0_elem; eauto.
Qed.

Section Frame.

Variable _clone : Heap -> addr -> Heap * addr.

Lemma frame_inv_initial h g cs rs :
  frame_inv h {| heap := h; stage := g; calls := cs; pending := []; requests := rs |}.
Proof.
  unfold frame_inv; simpl. rewrite !firstn_all. repeat split; auto.
  unfold closed. now rewrite !drop_all.
Qed.

Lemma frame_loop_step h E s ev :
  take (length (ents h)) (ents (_clone h E).1) = ents h ->
  take (length (lsts h)) (lsts (_clone h E).1) = lsts h ->
  closed (length (ents h)) (length (lsts h)) (_clone h E).1 = true ->
  length (ents h) <= (_clone h E).2 ->
  frame_loop_inv h E s ->
  event_fresh (length (ents h)) (length (lsts h)) ev = true ->
  frame_loop_inv h E (step _clone s ev).
Proof.
  intros Hc1 Hc2 Hc3 Hc4 Hinv Hev.
  destruct (expected s ev) eqn:Hexp;
    [| now rewrite step_unexpected].
  unfold frame_loop_inv in Hinv. unfold expected in Hexp.
  destruct (stage s) as [this lim dep | |] eqn:Hst; destruct ev as [r | i r];
    try discriminate.
  - destruct Hinv as (-> & Hh & Hp). unfold step. rewrite Hst.
    unfold after_fetch. rewrite Hh.
    destruct r as [| e]; [| destruct s; simpl in *; subst; apply frame_inv_initial].
    destruct (_clone h E) as [h1 c]; simpl in *.
    destruct (ents h1 !! c) as [ec |].
    + set (s0 := with_stage Expanding _).
      pose proof (mutate_stage c lim dep s0) as Hst1.
      pose proof (mutate_heap c lim dep s0) as Hh1.
      pose proof (mutate_tasks c lim dep s0) as Hts.
      destruct (_mutateAndExpandReplies c lim dep s0) as [s1 ts]; simpl in *.
      unfold frame_loop_inv, frame_inv; simpl. rewrite Hst1, Hh1. simpl.
      repeat split; auto.
      eapply Forall_impl; [exact Hts |]. intros t (_ & -> & _). exact Hc4.
    + unfold frame_loop_inv, frame_inv; simpl. rewrite Hp. repeat split; auto.
  - apply bool_decide_eq_true in Hexp.
    destruct (lookup_lt_is_Some_2 _ _ Hexp) as [t Ht].
    rewrite (step_fetchMore _ _ _ _ _ Hst Ht).
    assert (length (ents h) <= t_this t) as Hthis.
    { destruct Hinv as (_ & _ & _ & Hp).
      eapply (Forall_lookup_1 _ _ _ _ Hp Ht). }
    destruct (frame_inv_resume h s t r Hinv Hthis Hev) as [Hinv' Hts].
    unfold frame_loop_inv. simpl. rewrite resume_stage, Hst.
    destruct Hinv' as (H1 & H2 & H3 & _).
    destruct Hinv as (_ & _ & _ & Hp).
    unfold frame_inv; simpl in *. repeat split; auto.
    apply Forall_app. split; [now apply Forall_take |].
    apply Forall_app. split; [exact Hts | now apply Forall_drop].
Qed.

(** C3. Whatever the options and whatever the environment answers, at
    every moment of an expansion of [E] each object the caller had before
    the call is what it was: every entity (so [E] and its descendants,
    with each of their attributes, the references to their Listings among
    them) and every Listing (so the items of the children of [E]).  The
    hypotheses are the contracts of the collaborators: the deep clone adds
    a copy that shares nothing with the objects there were (it leaves
    them, and the copy refers only to new objects), and Fetch-more answers
    with a Listing of the clone's side (items it held, new entities). *)
Theorem expandReplies_leaves_original
    (h : Heap) (E : addr) (options : ExpandOptions) (tr : list event) :
  take (length (ents h)) (ents (_clone h E).1) = ents h ->
  take (length (lsts h)) (lsts (_clone h E).1) = lsts h ->
  closed (length (ents h)) (length (lsts h)) (_clone h E).1 = true ->
  length (ents h) <= (_clone h E).2 ->
  forallb (event_fresh (length (ents h)) (length (lsts h))) tr = true ->
  let s := exec _clone (expandReplies E options h) tr in
  (forall a e, ents h !! a = Some e -> ents (heap s) !! a = Some e) /\
  (forall l items, lsts h !! l = Some items -> lsts (heap s) !! l = Some items) /\
  (forall e, ents h !! E = Some e ->
     forall k, get_field (heap s) E k = prop_get k (fields e)) /\
  (forall e l items,
     ents h !! E = Some e ->
     prop_get (repliesKey e) (fields e) = Some (VListing l) ->
     lsts h !! l = Some items ->
     get_field (heap s) E (repliesKey e) = Some (VListing l) /\
     lsts (heap s) !! l = Some items /\
     children (heap s) E = items).
Proof.
  intros Hc1 Hc2 Hc3 Hc4 Htr s.
  assert (frame_loop_inv h E s) as Hinv.
  { apply (exec_invariant _clone (frame_loop_inv h E)
             (fun ev => event_fresh (length (ents h)) (length (lsts h)) ev = true)).
    - intros s0 ev. now apply frame_loop_step.
    - unfold frame_loop_inv; simpl. auto.
    - apply Forall_forall. intros ev Hev.
      rewrite forallb_forall in Htr. apply Htr. now apply list_elem_of_In. }
  assert (take (length (ents h)) (ents (heap s)) = ents h /\
          take (length (lsts h)) (lsts (heap s)) = lsts h) as [He Hl].
  { unfold frame_loop_inv in Hinv. destruct (stage s).
    - destruct Hinv as (_ & -> & _). now rewrite !firstn_all.
    - destruct Hinv as (? & ? & _). auto.
    - destruct Hinv as (? & ? & _). auto. }
  assert (forall a e, ents h !! a = Some e -> ents (heap s) !! a = Some e) as Hents.
  { intros a e Ha. rewrite <- He in Ha. apply lookup_take_Some in Ha. tauto. }
  assert (forall l items, lsts h !! l = Some items -> lsts (heap s) !! l = Some items)
    as Hlsts.
  { intros l its Ha. rewrite <- Hl in Ha. apply lookup_take_Some in Ha. tauto. }
  split; [exact Hents |]. split; [exact Hlsts |]. split.
  - intros e HE k. unfold get_field. now rewrite (Hents _ _ HE).
  - intros e l items HE Hk Hitems.
    unfold get_field, children. rewrite (Hents _ _ HE), Hk. rewrite (Hlsts _ _ Hitems).
    auto.
Qed.

End Frame.

(** ** Replies are kept *)

Lemma subseqb_sublist l1 l2 : subseqb l1 l2 = true -> sublist l1 l2.
Proof.
  revert l1. induction l2 as [| y r2 IH]; intros l1 H; simpl in H.
  - destruct l1; [constructor | discriminate].
  - destruct l1 as [| x r1]; [apply sublist_nil_l |].
    destruct (Nat.eqb_spec x y) as [-> | _].
    + apply sublist_skip. auto.
    + apply sublist_cons. auto.
Qed.

Lemma children_grow h h' y :
  (forall e, ents h !! y = Some e -> ents h' !! y = Some e) ->
  (forall l its, lsts h !! l = Some its -> lsts h' !! l = Some its) ->
  sublist (children h y) (children h' y).
Proof.
  intros He Hl. unfold children.
  destruct (ents h !! y) as [e |] eqn:Hy; [| apply sublist_nil_l].
  rewrite (He _ eq_refl).
  destruct (prop_get (repliesKey e) (fields e)) as [[| | | | l] |];
    try apply sublist_nil_l.
  destruct (lsts h !! l) as [its |] eqn:Hits; [| apply sublist_nil_l].
  now rewrite (Hl _ _ Hits).
Qed.

Lemma children_spec h x e l items :
  ents h !! x = Some e ->
  prop_get (repliesKey e) (fields e) = Some (VListing l) ->
  lsts h !! l = Some items ->
  children h x = items.
Proof. intros He Hk Hl. unfold children. now rewrite He, Hk, Hl. Qed.

Lemma children_in_listing h x y :
  y ∈ children h x -> exists l items, lsts h !! l = Some items /\ y ∈ items.
Proof.
  unfold children. intros Hy.
  destruct (ents h !! x) as [e |]; [| now apply elem_of_nil in Hy].
  destruct (prop_get (repliesKey e) (fields e)) as [[| | | | l] |];
    try now apply elem_of_nil in Hy.
  destruct (lsts h !! l) as [its |] eqn:Hits; [| now apply elem_of_nil in Hy].
  eauto.
Qed.

Lemma kept_inv_fetchMore h1 s i t r :
  kept_inv h1 s -> pending s !! i = Some t ->
  keeps_items s (FetchMoreDone i r) = true ->
  kept_inv h1 (with_pending (take i (pending s) ++ (resume t r s).2 ++ drop (S i) (pending s))
                            (resume t r s).1).
Proof.
  intros (Hch & Hpend & Hlab) Ht Hkeep.
  pose proof (Forall_lookup_1 _ _ _ _ Hpend Ht) as (e & its & He & Hkey & Hits & Hsub).
  pose proof (resume_tasks t r s) as Hts.
  unfold kept_inv. simpl.
  set (h' := heap (resume t r s).1) in *.
  assert (forall l items, lsts (heap s) !! l = Some items -> lsts h' !! l = Some items)
    as Hlsts by (intros; now apply resume_lsts).
  assert (forall y e0, ents (heap s) !! y = Some e0 ->
            exists e0', ents h' !! y = Some e0' /\ _name e0' = _name e0 /\
                        prop_get "name" (fields e0') = prop_get "name" (fields e0) /\
                        (y <> t_this t \/ (exists e', r = FmFail e') -> e0' = e0))
    as Hents.
  { intros y e0 Hy. unfold h'. rewrite resume_heap.
    destruct r as [e' | ne nl l]; [exists e0; eauto |].
    assert (ents (alloc (heap s) ne nl) !! y = Some e0) as Hy'
        by (simpl; now apply lookup_app_l_Some).
    destruct (decide (y = t_this t)) as [-> | Hne].
    - rewrite (set_field_same _ _ _ _ _ Hy'). eexists. split; [reflexivity |].
      simpl. split; [reflexivity |]. split.
      + apply prop_get_set_ne. rewrite He in Hy. injection Hy as <-.
        rewrite Hkey. apply repliesKey_not_name.
      + intros [Hc | [e' Hc]]; [contradiction | discriminate].
    - rewrite set_field_other by exact Hne. exists e0. auto. }
  assert (forall x, sublist (children h1 x) (children h' x)) as Hch'.
  { intros x. destruct r as [e' | ne nl l].
    - etransitivity; [apply Hch |]. apply children_grow; [| exact Hlsts].
      intros e0 Hy. destruct (Hents _ _ Hy) as (e0' & Hy' & _ & _ & Heq).
      rewrite Hy'. f_equal. apply Heq. right. eauto.
    - destruct (decide (x = t_this t)) as [-> | Hne].
      + simpl in Hkeep. rewrite Ht in Hkeep.
        destruct ((lsts (heap s) ++ nl) !! l) as [items' |] eqn:Hl; [| discriminate].
        apply subseqb_sublist in Hkeep. unfold items_of in Hkeep.
        rewrite Hits in Hkeep. simpl in Hkeep.
        assert (children h' (t_this t) = items') as ->.
        { unfold h'. rewrite resume_heap.
          assert (ents (alloc (heap s) ne nl) !! t_this t = Some e) as Hy'
              by (simpl; now apply lookup_app_l_Some).
          eapply children_spec.
          - apply (set_field_same _ _ _ _ _ Hy').
          - unfold repliesKey at 1. simpl. fold (repliesKey e).
            rewrite Hkey. apply prop_get_set_eq.
          - rewrite set_field_lsts. exact Hl. }
        etransitivity; eauto.
      + etransitivity; [apply Hch |]. apply children_grow; [| exact Hlsts].
        intros e0 Hy. destruct (Hents _ _ Hy) as (e0' & Hy' & _ & _ & Heq).
        rewrite Hy'. f_equal. apply Heq. now left. }
  split; [exact Hch' |]. split.
  - assert (Forall (fun t0 => exists e0 its0,
                ents h' !! t_this t0 = Some e0 /\ t_key t0 = repliesKey e0 /\
                lsts h' !! t_listing t0 = Some its0 /\
                sublist (children h1 (t_this t0)) its0) (pending s)) as Hold.
    { eapply Forall_impl; [exact Hpend |].
      intros t0 (e0 & its0 & He0 & Hk0 & Hl0 & Hs0).
      destruct (Hents _ _ He0) as (e0' & He0' & Hn0 & _).
      exists e0', its0. repeat split; auto.
      rewrite Hk0. unfold repliesKey. now rewrite Hn0. }
    apply Forall_app. split; [now apply Forall_take |].
    apply Forall_app. split; [| now apply Forall_drop].
    eapply Forall_impl; [exact Hts |].
    intros t' (id & ne & nl & l & items & _ & _ & _ & _ & Hsp).
    destruct Hsp as (_ & _ & _ & _ & _ & e0 & its0 & He0 & Hk0 & Hp0 & Hl0 & _).
    exists e0, its0. repeat split; auto.
    rewrite <- (children_spec _ _ _ _ _ He0 Hp0 Hl0). apply Hch'.
  - intros x e0 Hx. destruct (Hlab _ _ Hx) as (e1 & He1 & Hn1 & Hnm1).
    destruct (Hents _ _ He1) as (e2 & He2 & Hn2 & Hnm2 & _).
    exists e2. repeat split; auto; congruence.
Qed.

Lemma root_inv_fetchMore c s i t r :
  root_inv c s -> pending s !! i = Some t ->
  root_inv c (with_pending (take i (pending s) ++ (resume t r s).2 ++ drop (S i) (pending s))
                           (resume t r s).1).
Proof.
  intros (Hlen & Hpend & Hroot) Ht.
  pose proof (Forall_lookup_1 _ _ _ _ Hpend Ht) as Hthis.
  destruct (resume_calls t r s) as (more & p & Hcalls & Hp).
  unfold root_inv. simpl. rewrite Hcalls. split; [| split].
  - rewrite length_alter, length_app. lia.
  - apply Forall_app. split; [now apply Forall_take |].
    apply Forall_app. split; [| now apply Forall_drop].
    eapply Forall_impl; [apply resume_tasks |].
    intros t' (id & ne & nl & l & items & Hid & _ & _ & _ & Hsp).
    destruct Hsp as (Hcall & _). intros H0. lia.
  - intros call r0. rewrite list_lookup_alter.
    destruct (decide (t_call t = 0)) as [H0 | H0].
    + rewrite H0. destruct ((calls s ++ more) !! 0) as [c0 |]; [| discriminate].
      simpl. intros [= <-]. simpl. intros ->%Hp. auto.
    + rewrite lookup_app_l by exact Hlen. apply Hroot.
Qed.

(** ** The tree of the result *)

Lemma kids_le_map (f g : nat -> Tree) (ys ys' : list nat) :
  sublist ys ys' -> (forall y, y ∈ ys -> tree_le (f y) (g y)) ->
  kids_le (map f ys) (map g ys').
Proof.
  intros Hsub. induction Hsub as [| y ys ys' _ IH | y ys ys' _ IH]; intros Hle; simpl.
  - constructor.
  - apply kids_le_cons.
    + apply Hle. now left.
    + apply IH. intros z Hz. apply Hle. now right.
  - apply kids_le_skip. now apply IH.
Qed.

Lemma wf_items_spec h l items a :
  wf_items h = true -> lsts h !! l = Some items -> a ∈ items -> is_Some (ents h !! a).
Proof.
  unfold wf_items. intros Hwf Hl Ha.
  rewrite forallb_lookup in Hwf. specialize (Hwf _ _ Hl).
  rewrite forallb_forall in Hwf. apply list_elem_of_In in Ha.
  apply Hwf in Ha. apply Nat.ltb_lt in Ha. now apply lookup_lt_is_Some_2.
Qed.

Lemma tree_le_of (h1 hf : Heap) :
  wf_items h1 = true ->
  (forall x, sublist (children h1 x) (children hf x)) ->
  (forall x e, ents h1 !! x = Some e -> label hf x = label h1 x) ->
  forall n x, is_Some (ents h1 !! x) -> tree_le (tree_of n h1 x) (tree_of n hf x).
Proof.
  intros Hwf Hch Hlab n. induction n as [| n IH]; intros x [e Hx]; simpl.
  - rewrite (Hlab _ _ Hx). repeat constructor.
  - rewrite (Hlab _ _ Hx). constructor. apply kids_le_map; [apply Hch |].
    intros y Hy. apply IH.
    destruct (children_in_listing _ _ _ Hy) as (l & items & Hl & Hin).
    eapply wf_items_spec; eauto.
Qed.

Section Preservation.

Variable _clone : Heap -> addr -> Heap * addr.

Lemma exec_invariant_checked (I : State -> Prop) (check : State -> event -> bool) :
  (forall s ev, I s -> check s ev = true -> I (step _clone s ev)) ->
  forall tr s, I s -> trace_ok _clone check s tr = true -> I (exec _clone s tr).
Proof.
  intros Hstep tr. induction tr as [| ev tr IH]; intros s Hs Htr; simpl in *; [exact Hs |].
  apply andb_true_iff in Htr as [Hev Htr]. apply IH; auto.
Qed.

Lemma expanding_inv_step h1 c s ev :
  expanding_inv h1 c s -> keeps_items s ev = true ->
  expanding_inv h1 c (step _clone s ev).
Proof.
  intros (Hst & Hkept & Hroot) Hev.
  destruct (expected s ev) eqn:Hexp;
    [| rewrite step_unexpected by exact Hexp; now split].
  unfold expected in Hexp. rewrite Hst in Hexp.
  destruct ev as [r | i r]; [discriminate |].
  apply bool_decide_eq_true in Hexp.
  destruct (lookup_lt_is_Some_2 _ _ Hexp) as [t Ht].
  rewrite (step_fetchMore _ _ _ _ _ Hst Ht). split; [| split].
  - simpl. now rewrite resume_stage.
  - now apply kept_inv_fetchMore.
  - now apply root_inv_fetchMore.
Qed.

(** The state the answer of [this.fetch()] leaves: the clone is made and
    the call on it waits for its request, or is done. *)
Lemma expanding_inv_started h E options ec :
  ents (_clone h E).1 !! (_clone h E).2 = Some ec ->
  expanding_inv (_clone h E).1 (_clone h E).2
                (step _clone (expandReplies E options h) (FetchDone FetchOk)).
Proof.
  simpl. destruct (_clone h E) as [h1 c]. simpl. intros Hc. rewrite Hc.
  set (s0 := with_stage Expanding _).
  pose proof (mutate_stage c (default Inf (limit options))
                (default Inf (depth options)) s0) as Hst.
  pose proof (mutate_heap c (default Inf (limit options))
                (default Inf (depth options)) s0) as Hh.
  pose proof (mutate_tasks c (default Inf (limit options))
                (default Inf (depth options)) s0) as Hts.
  destruct (mutate_calls c (default Inf (limit options))
              (default Inf (depth options)) s0) as (p & Hcalls & Hp).
  destruct (_mutateAndExpandReplies _ _ _ s0) as [s1 ts]. simpl in *.
  split; [exact Hst |]. split.
  - unfold kept_inv. simpl. rewrite Hh. split; [reflexivity |]. split.
    + eapply Forall_impl; [exact Hts |].
      intros t (_ & Hthis & _ & _ & _ & e & items & He & Hk & Hp' & Hl & _).
      rewrite Hthis. exists e, items. repeat split; auto.
      now rewrite (children_spec _ _ _ _ _ He Hp' Hl).
    + intros x e Hx. exists e. auto.
  - unfold root_inv. simpl. rewrite Hcalls. simpl. split; [lia |]. split.
    + eapply Forall_impl; [exact Hts |]. intros t (_ & Hthis & _). auto.
    + intros call r [= <-]. simpl. auto.
Qed.

(** C5. Let Fetch-more keep its contract: each answer is a Listing that
    holds every item of the Listing it was asked about, in the same order.
    Then, whatever the limit and the depth, the tree of the clone has, at
    every moment of the expansion and so in the result of the promise,
    every reply of the tree of [E] before the call, each under the same
    parent and with its siblings in the same order: [n] levels of the tree
    of [E] are found within [n] levels of the tree of the result, for
    every [n].  Of the deep clone it is assumed that its store is well
    formed and that the copy has the tree of [E]. *)
Theorem expandReplies_keeps_replies
    (h : Heap) (E : addr) (options : ExpandOptions) (tr : list event) (n : nat) :
  wf_items (_clone h E).1 = true ->
  ((_clone h E).2 <? length (ents (_clone h E).1)) = true ->
  tree_of n (_clone h E).1 (_clone h E).2 = tree_of n h E ->
  trace_ok _clone keeps_items (step _clone (expandReplies E options h) (FetchDone FetchOk)) tr
  = true ->
  let s := exec _clone (expandReplies E options h) (FetchDone FetchOk :: tr) in
  tree_le (tree_of n h E) (tree_of n (heap s) (_clone h E).2) /\
  (forall r, expand_promise s = Fulfilled r ->
             r = (_clone h E).2 /\ tree_le (tree_of n h E) (tree_of n (heap s) r)).
Proof.
  intros Hwf Hc Htree Htr s.
  apply Nat.ltb_lt, lookup_lt_is_Some_2 in Hc. destruct Hc as [ec Hc].
  assert (expanding_inv (_clone h E).1 (_clone h E).2 s) as (Hst & Hkept & Hroot).
  { subst s.
    change (exec _clone ?s0 (?ev :: tr)) with (exec _clone (step _clone s0 ev) tr).
    apply (exec_invariant_checked _ keeps_items).
    - intros s0 ev. apply expanding_inv_step.
    - eapply expanding_inv_started; eauto.
    - exact Htr. }
  destruct Hkept as (Hch & _ & Hlab).
  assert (tree_le (tree_of n h E) (tree_of n (heap s) (_clone h E).2)) as Hle.
  { rewrite <- Htree. apply tree_le_of; eauto.
    intros x e Hx. destruct (Hlab _ _ Hx) as (e' & Hx' & Hn & Hnm).
    unfold label. now rewrite Hx, Hx', Hn, Hnm. }
  split; [exact Hle |].
  intros r Hr. unfold expand_promise in Hr. rewrite Hst in Hr.
  destruct Hroot as (_ & _ & Hroot).
  destruct (calls s !! 0) as [call |] eqn:Hcall; [| discriminate].
  rewrite (Hroot _ _ eq_refl Hr). auto.
Qed.

End Preservation.

(** ** Depth zero *)

Section DepthZero.

Variable _clone : Heap -> addr -> Heap * addr.

Lemma idle_inv_step dep s ev :
  num_le0 dep = true -> idle_inv dep s -> idle_inv dep (step _clone s ev).
Proof.
  intros Hdep (Hreq & Hpend & Hst).
  destruct (expected s ev) eqn:Hexp;
    [| rewrite step_unexpected by exact Hexp; now split].
  unfold expected in Hexp.
  destruct ev as [r | i r], (stage s) as [this lim d | |] eqn:Hstage; try discriminate.
  - subst d. unfold step. rewrite Hstage. unfold after_fetch.
    destruct r as [| e]; [| now split].
    destruct (_clone (heap s) this) as [h1 c].
    destruct (ents h1 !! c); [| now split].
    rewrite mutate_base by exact Hdep. now split.
  - apply bool_decide_eq_true in Hexp. rewrite Hpend in Hexp. simpl in Hexp. lia.
Qed.

Lemma settled_exec s tr :
  stage s = Expanding -> pending s = [] -> exec _clone s tr = s.
Proof.
  intros Hst Hp. induction tr as [| ev tr IH]; simpl; [reflexivity |].
  rewrite step_unexpected; [exact IH |].
  unfold expected. rewrite Hst, Hp. destruct ev; [reflexivity |].
  apply bool_decide_eq_false. simpl. lia.
Qed.

(** C4. With [depth <= 0] (so with [{depth: 0}]), and any limit: the
    recursive step fulfils its promise with its node at once and leaves
    the store, the requests in flight and the log of requests as they
    are; during the whole call of [expandReplies] no [fetchMore] is sent
    to any Listing; and once [this.fetch()] is answered the promise is
    fulfilled with the clone, in the store the clone was made in, so that
    the tree of the result is, level by level, the tree the deep clone
    copied from [E]: as many nodes, as many children at each node. *)
Theorem expandReplies_depth_zero
    (h : Heap) (E : addr) (lim : option num) (dep : num) (tr : list event) (n : nat) :
  num_le0 dep = true ->
  ((_clone h E).2 <? length (ents (_clone h E).1)) = true ->
  tree_of n (_clone h E).1 (_clone h E).2 = tree_of n h E ->
  let start := expandReplies E {| limit := lim; depth := Some dep |} h in
  let s := exec _clone start (FetchDone FetchOk :: tr) in
  (forall this lim' s0,
      _mutateAndExpandReplies this lim' dep s0
      = (push_call {| c_this := this; c_limit := lim'; c_depth := dep;
                      c_promise := Fulfilled this |} s0, [])) /\
  (forall tr', requests (exec _clone start tr') = []) /\
  expand_promise s = Fulfilled (_clone h E).2 /\
  heap s = (_clone h E).1 /\
  pending s = [] /\
  tree_of n (heap s) (_clone h E).2 = tree_of n h E.
Proof.
  intros Hdep Hc Htree start s.
  split; [intros; now apply mutate_base |]. split.
  { intros tr'.
    assert (idle_inv dep (exec _clone start tr')) as (Hreq & _).
    { apply (exec_invariant _clone (idle_inv dep) (fun _ => True)).
      - intros s0 ev Hs0 _. now apply idle_inv_step.
      - now split.
      - apply Forall_forall. auto. }
    exact Hreq. }
  apply Nat.ltb_lt, lookup_lt_is_Some_2 in Hc. destruct Hc as [ec Hc].
  assert (s = with_pending []
                (push_call {| c_this := (_clone h E).2; c_limit := default Inf lim;
                              c_depth := dep; c_promise := Fulfilled (_clone h E).2 |}
                   (with_stage Expanding (with_heap (_clone h E).1 start)))) as ->.
  { subst s.
    change (exec _clone ?s0 (?ev :: tr)) with (exec _clone (step _clone s0 ev) tr).
    assert (step _clone start (FetchDone FetchOk)
            = with_pending []
                (push_call {| c_this := (_clone h E).2; c_limit := default Inf lim;
                              c_depth := dep; c_promise := Fulfilled (_clone h E).2 |}
                   (with_stage Expanding (with_heap (_clone h E).1 start)))) as ->.
    { simpl. destruct (_clone h E) as [h1 c]. simpl in *. rewrite Hc.
      now rewrite mutate_base by exact Hdep. }
    now apply settled_exec. }
  simpl. auto.
Qed.

End DepthZero.

(** ** Which calls are made, and which entities are written *)

Lemma map_calls_log targets lim dep s :
  exists k,
    map call_args (calls (map_calls targets lim dep s).1.1)
    = map call_args (calls s) ++ map (fun r => (r, lim, dep)) (take k targets) /\
    Forall (fun t => t_this t ∈ take k targets) (map_calls targets lim dep s).1.2 /\
    (forallb (is_entity (heap s)) targets = true ->
     k = length targets /\ (map_calls targets lim dep s).2 = true).
Proof.
  revert s. induction targets as [| r rest IH]; intros s; simpl.
  - exists 0. simpl. rewrite app_nil_r. auto.
  - destruct (ents (heap s) !! r) as [e |] eqn:Hr.
    + destruct (mutate_calls r lim dep s) as (p & Hp & _).
      pose proof (mutate_tasks r lim dep s) as Hts.
      pose proof (mutate_heap r lim dep s) as Hh.
      destruct (_mutateAndExpandReplies r lim dep s) as [s1 ts1].
      destruct (IH s1) as (k & Hk & Hin & Hall).
      destruct (map_calls rest lim dep s1) as [[s2 ts2] ok]; simpl in *.
      exists (S k). simpl. split; [| split].
      * rewrite Hk, Hp, map_app, <- app_assoc. reflexivity.
      * apply Forall_app. split.
        -- eapply Forall_impl; [exact Hts |]. intros t (_ & -> & _). now left.
        -- eapply Forall_impl; [exact Hin |]. intros t Ht. now right.
      * intros Hv. apply andb_true_iff in Hv as [_ Hv]. rewrite Hh in Hall.
        destruct (Hall Hv) as [-> ->]. auto.
    + exists 0. simpl. rewrite app_nil_r. split; [reflexivity |]. split; [constructor |].
      intros Hv. apply andb_true_iff in Hv as [Hv _].
      apply Nat.ltb_lt, lookup_lt_is_Some_2 in Hv. destruct Hv as [e He]. congruence.
Qed.

Lemma map_call_args_alter p i cs :
  map call_args (alter (with_promise p) i cs) = map call_args cs.
Proof.
  revert i. induction cs as [| c cs IH]; intros i; [reflexivity |].
  destruct i; simpl; [reflexivity |]. f_equal. apply IH.
Qed.

(** The calls a continuation makes, logged in order: on a prefix of the
    first [limit] items of the Listing, and on all of them when each is an
    entity; the limit is the same, the depth is one less. *)
Lemma resume_log t ne nl l s items :
  (lsts (heap s) ++ nl) !! l = Some items ->
  exists k,
    map call_args (calls (resume t (FmOk ne nl l) s).1)
    = map call_args (calls s)
      ++ map (fun r => (r, t_limit t, num_pred (t_depth t)))
             (take k (slice0 (t_limit t) items)) /\
    Forall (fun t' => t_this t' ∈ take k (slice0 (t_limit t) items))
           (resume t (FmOk ne nl l) s).2 /\
    (forallb (fun a => a <? length (ents (heap s)) + length ne) (slice0 (t_limit t) items)
     = true ->
     k = length (slice0 (t_limit t) items) /\
     exists p, calls (resume t (FmOk ne nl l) s).1 !! t_call t
               = with_promise (Fulfilled (t_this t)) <$> p).
Proof.
  intros Hl. unfold resume. set (s1 := with_heap _ s).
  assert (lsts (heap s1) !! l = Some items) as ->
      by (unfold s1; simpl; now rewrite set_field_lsts).
  destruct (map_calls_log (slice0 (t_limit t) items) (t_limit t)
              (num_pred (t_depth t)) s1) as (k & Hk & Hin & Hall).
  destruct (map_calls _ _ _ s1) as [[s2 ts] ok]. simpl in *.
  exists k. rewrite map_call_args_alter. repeat split; auto.
  - destruct Hall as [Hall _]; [| exact Hall].
    unfold is_entity. rewrite set_field_length. simpl. now rewrite length_app.
  - destruct Hall as [_ ->].
    + unfold is_entity. rewrite set_field_length. simpl. now rewrite length_app.
    + eexists. apply list_lookup_alter_eq.
Qed.

Lemma resume_this t ne nl l s e :
  ents (heap s) !! t_this t = Some e ->
  ents (heap (resume t (FmOk ne nl l) s).1) !! t_this t
  = Some {| _name := _name e; fields := prop_set (t_key t) (VListing l) (fields e) |}.
Proof.
  intros He. rewrite resume_heap. apply set_field_same.
  simpl. now apply lookup_app_l_Some.
Qed.

Lemma resume_other t r s a e :
  a <> t_this t -> ents (heap s) !! a = Some e ->
  ents (heap (resume t r s).1) !! a = Some e.
Proof.
  intros Hne He. rewrite resume_heap. destruct r as [e' | ne nl l]; [exact He |].
  rewrite set_field_other by exact Hne. simpl. now apply lookup_app_l_Some.
Qed.

Lemma resume_kind t r s a e :
  ents (heap s) !! a = Some e ->
  exists e', ents (heap (resume t r s).1) !! a = Some e' /\ _name e' = _name e.
Proof.
  intros He. destruct (decide (a = t_this t)) as [-> | Hne].
  - destruct r as [e' | ne nl l].
    + rewrite resume_heap. eauto.
    + rewrite (resume_this _ _ _ _ _ _ He). eauto.
  - rewrite (resume_other _ _ _ _ _ Hne He). eauto.
Qed.

Lemma map_c_this cs : map c_this cs = map (fun x : nat * num * num => x.1.1) (map call_args cs).
Proof. rewrite map_map. reflexivity. Qed.

Lemma resume_calls_grow t r s a :
  a ∈ map c_this (calls s) -> a ∈ map c_this (calls (resume t r s).1).
Proof.
  intros Ha. destruct (resume_calls t r s) as (more & p & -> & _).
  rewrite map_c_this, map_call_args_alter, <- map_c_this, map_app.
  apply elem_of_app. now left.
Qed.

Lemma tasks_inv_fetchMore s i t r :
  tasks_inv s -> pending s !! i = Some t ->
  tasks_inv (with_pending (take i (pending s) ++ (resume t r s).2 ++ drop (S i) (pending s))
                          (resume t r s).1).
Proof.
  intros Hinv Ht. unfold tasks_inv in *. simpl.
  assert (Forall (fun t0 => t_this t0 ∈ map c_this (calls (resume t r s).1) /\
            exists e, ents (heap (resume t r s).1) !! t_this t0 = Some e /\
                      t_key t0 = repliesKey e) (pending s)) as Hold.
  { eapply Forall_impl; [exact Hinv |]. intros t0 (Hin & e & He & Hk). split.
    - now apply resume_calls_grow.
    - destruct (resume_kind t r s _ _ He) as (e' & He' & Hn).
      exists e'. split; [exact He' |]. rewrite Hk. unfold repliesKey. now rewrite Hn. }
  apply Forall_app. split; [now apply Forall_take |].
  apply Forall_app. split; [| now apply Forall_drop].
  pose proof (resume_tasks t r s) as Hts.
  destruct r as [e' | ne nl l]; [constructor |].
  rewrite Forall_forall in Hts. apply Forall_forall. intros t' Ht'.
  destruct (Hts _ Ht') as (id & ne' & nl' & l' & items & _ & [= <- <- <-] & Hl & _ & Hsp).
  destruct Hsp as (_ & _ & _ & _ & _ & e & its & He & Hk & _). split; [| eauto].
  rewrite resume_heap, set_field_lsts in Hl.
  destruct (resume_log t ne nl l s items Hl) as (k & Hlog & Hin & _).
  rewrite Forall_forall in Hin. specialize (Hin _ Ht').
  rewrite map_c_this, Hlog, map_app.
  apply elem_of_app. right. rewrite map_map. simpl. rewrite map_id. exact Hin.
Qed.

Section Branching.

Variable _clone : Heap -> addr -> Heap * addr.

Lemma log_inv_step h1 s ev : log_inv h1 s -> log_inv h1 (step _clone s ev).
Proof.
  intros (Hst & Htasks & Hun).
  destruct (expected s ev) eqn:Hexp;
    [| rewrite step_unexpected by exact Hexp; now split].
  unfold expected in Hexp.
  destruct ev as [r | i r], (stage s) as [this lim d | |] eqn:Hstage; try discriminate.
  { destruct Hst as [Hst | (_ & e & Hst)]; discriminate. }
  apply bool_decide_eq_true in Hexp.
  destruct (lookup_lt_is_Some_2 _ _ Hexp) as [t Ht].
  rewrite (step_fetchMore _ _ _ _ _ Hstage Ht). split; [| split].
  - left. simpl. now rewrite resume_stage.
  - now apply tasks_inv_fetchMore.
  - simpl. intros a e Ha Hnot.
    pose proof (Forall_lookup_1 _ _ _ _ Htasks Ht) as (Hin & _).
    apply resume_other.
    + intros ->. apply Hnot. now apply resume_calls_grow.
    + apply Hun; [exact Ha |]. intros Hc. apply Hnot. now apply resume_calls_grow.
Qed.

Lemma log_inv_started h E options :
  log_inv (_clone h E).1 (step _clone (expandReplies E options h) (FetchDone FetchOk)).
Proof.
  simpl. destruct (_clone h E) as [h1 c]. simpl.
  destruct (ents h1 !! c) as [ec |] eqn:Hc.
  - set (s0 := with_stage Expanding _).
    pose proof (mutate_stage c (default Inf (limit options))
                  (default Inf (depth options)) s0) as Hst.
    pose proof (mutate_heap c (default Inf (limit options))
                  (default Inf (depth options)) s0) as Hh.
    pose proof (mutate_tasks c (default Inf (limit options))
                  (default Inf (depth options)) s0) as Hts.
    destruct (mutate_calls c (default Inf (limit options))
                (default Inf (depth options)) s0) as (p & Hcalls & _).
    destruct (_mutateAndExpandReplies _ _ _ s0) as [s1 ts]. simpl in *.
    split; [| split].
    + left. exact Hst.
    + unfold tasks_inv. simpl. eapply Forall_impl; [exact Hts |].
      intros t (_ & -> & _ & _ & _ & e & items & He & Hk & _).
      rewrite Hcalls, Hh. simpl. split; [now left | eauto].
    + simpl. rewrite Hh. auto.
  - split; [| split]; simpl; auto; [right; eauto | constructor].
Qed.

Lemma log_inv_exec h E options tr :
  log_inv (_clone h E).1 (exec _clone (expandReplies E options h) (FetchDone FetchOk :: tr)).
Proof.
  change (exec _clone ?s0 (?ev :: tr)) with (exec _clone (step _clone s0 ev) tr).
  apply (exec_invariant _clone (log_inv (_clone h E).1) (fun _ => True)).
  - intros s0 ev Hs0 _. now apply log_inv_step.
  - apply log_inv_started.
  - apply Forall_forall. auto.
Qed.

(** C6. When a continuation of the expansion gets its Listing [items]
    (each of whose first [limit] items is an entity), the node has the
    whole of it for children, beyond the limit too; the calls it makes
    are, in order, on the items of [items.slice(0, limit)], which for a
    limit [z >= 0] are the first [z] items, each call with the same limit
    and the depth less one; no other entity is written in this turn; and
    through the whole expansion an entity of the clone on which the
    recursive step is not called, such as a child beyond the limit, stays
    what it was when the clone was made. *)
Theorem limit_bounds_recursion_not_result
    (h : Heap) (E : addr) (options : ExpandOptions) (tr : list event)
    (i : nat) (t : Task) (new_ents : list Entity) (new_lsts : list Listing)
    (l : laddr) (items : list addr) :
  let start := expandReplies E options h in
  let s := exec _clone start (FetchDone FetchOk :: tr) in
  let s' := step _clone s (FetchMoreDone i (FmOk new_ents new_lsts l)) in
  pending s !! i = Some t ->
  (lsts (heap s) ++ new_lsts) !! l = Some items ->
  forallb (fun a => a <? length (ents (heap s)) + length new_ents)
          (slice0 (t_limit t) items) = true ->
  children (heap s') (t_this t) = items /\
  map call_args (calls s')
  = map call_args (calls s)
    ++ map (fun r => (r, t_limit t, num_pred (t_depth t))) (slice0 (t_limit t) items) /\
  (forall z, t_limit t = Fin z -> (0 <= z)%Z ->
             slice0 (t_limit t) items = take (Z.to_nat z) items) /\
  (forall a e, a <> t_this t -> ents (heap s) !! a = Some e ->
               ents (heap s') !! a = Some e) /\
  (forall tr' a e,
      let s'' := exec _clone start (FetchDone FetchOk :: tr') in
      ents (_clone h E).1 !! a = Some e -> a ∉ map c_this (calls s'') ->
      ents (heap s'') !! a = Some e).
Proof.
  intros start s s' Ht Hl Hvalid.
  destruct (log_inv_exec h E options tr) as (Hst & Htasks & _).
  fold start in Hst, Htasks. fold s in Hst, Htasks.
  assert (stage s = Expanding) as Hstage.
  { destruct Hst as [Hst | (Hp & _)]; [exact Hst |]. rewrite Hp in Ht. discriminate. }
  pose proof (Forall_lookup_1 _ _ _ _ Htasks Ht) as (_ & e & He & Hk).
  unfold s'. rewrite (step_fetchMore _ _ _ _ _ Hstage Ht).
  cbn [with_pending heap calls].
  destruct (resume_log t new_ents new_lsts l s items Hl) as (k & Hlog & _ & Hall).
  destruct (Hall Hvalid) as [-> _]. rewrite firstn_all in Hlog.
  split; [| split; [exact Hlog | split; [| split]]].
  - eapply children_spec.
    + apply (resume_this _ _ _ _ _ _ He).
    + unfold repliesKey at 1. simpl. fold (repliesKey e).
      rewrite Hk. apply prop_get_set_eq.
    + rewrite resume_heap, set_field_lsts. exact Hl.
  - intros z -> Hz. now apply slice0_fin_nonneg.
  - intros a e0 Hne Ha. now apply resume_other.
  - intros tr' a e0 Ha Hnot.
    destruct (log_inv_exec h E options tr') as (_ & _ & Hun). now apply Hun.
Qed.

End Branching.

(** ** The request of one node, and the field it writes *)


Lemma mutate_request this lim dep s e l items :
  num_le0 dep = false ->
  ents (heap s) !! this = Some e ->
  prop_get (repliesKey e) (fields e) = Some (VListing l) ->
  lsts (heap s) !! l = Some items ->
  _mutateAndExpandReplies this lim dep s
  = (log_request l (num_sub_len lim (length items))
       (push_call {| c_this := this; c_limit := lim; c_depth := dep; c_promise := Pending |} s),
     [ {| t_call := length (calls s); t_this := this; t_key := repliesKey e;
          t_limit := lim; t_depth := dep; t_listing := l;
          t_amount := num_sub_len lim (length items) |} ]).
Proof.
  intros Hdep He Hk Hl. unfold _mutateAndExpandReplies.
  now rewrite Hdep, He, Hk, Hl.
Qed.



(** ** [distinguish] and [undistinguish] *)

Section OneShotFacts.

Variable _post : Request -> option error.

(** C10. [undistinguish()] is [distinguish({status: false, sticky: false})]:
    it sends the one request to ['api/distinguish'] with [how = 'no'],
    [sticky = false] and the name of the entity for [id], and its promise
    is fulfilled with the entity when the request succeeds.  In general
    [distinguish] sends [how = 'yes'] for the status [true] (the default),
    ['no'] for [false], and a string status as it is. *)
Theorem undistinguish_is_distinguish_no (h : Heap) (this : addr) :
  let req := {| url := "api/distinguish";
                form := [ ("api_type", VStr "json"); ("how", VStr "no");
                          ("sticky", VBool false);
                          ("id", default VUndefined (get_field h this "name")) ] |} in
  undistinguish _post h this
  = distinguish _post h this
      (Some {| status := Some (VBool false); sticky := Some (VBool false) |}) /\
  undistinguish _post h this
  = (req, match _post req with None => Fulfilled this | Some e => Rejected e end) /\
  how (VBool true) = VStr "yes" /\
  how (VBool false) = VStr "no" /\
  (forall str, how (VStr str) = VStr str) /\
  (forall options,
      prop_get "how" (form (distinguish _post h this options).1)
      = Some (how (or_default (VBool true)
                     (status (default {| status := None; sticky := None |} options))))) /\
  (distinguish _post h this None).1
  = (distinguish _post h this
       (Some {| status := Some (VBool true); sticky := Some (VBool false) |})).1.
Proof. repeat split. Qed.

End OneShotFacts.

(** ** A promise that is fulfilled stays fulfilled *)

Lemma root_fulfilled_step _clone c s ev :
  root_fulfilled c s -> root_fulfilled c (step _clone s ev).
Proof.
  intros (Hst & (call & Hcall & Hp) & Hpend).
  destruct (expected s ev) eqn:Hexp;
    [| rewrite step_unexpected by exact Hexp; split; eauto].
  unfold expected in Hexp. rewrite Hst in Hexp.
  destruct ev as [r | i r]; [discriminate |].
  apply bool_decide_eq_true in Hexp.
  destruct (lookup_lt_is_Some_2 _ _ Hexp) as [t Ht].
  rewrite (step_fetchMore _ _ _ _ _ Hst Ht).
  pose proof (Forall_lookup_1 _ _ _ _ Hpend Ht) as Hne.
  assert (0 < length (calls s)) as Hlen by (eapply lookup_lt_Some; eauto).
  destruct (resume_calls t r s) as (more & p & Hcalls & _).
  split; [| split].
  - simpl. now rewrite resume_stage.
  - exists call. simpl. rewrite Hcalls.
    rewrite list_lookup_alter_ne by exact Hne.
    rewrite lookup_app_l by exact Hlen. auto.
  - simpl. apply Forall_app. split; [now apply Forall_take |].
    apply Forall_app. split; [| now apply Forall_drop].
    eapply Forall_impl; [apply resume_tasks |].
    intros t' (id & ne & nl & l & items & Hid & _ & _ & _ & Hsp).
    destruct Hsp as (Hcall' & _). lia.
Qed.

Lemma root_fulfilled_exec _clone c s tr :
  root_fulfilled c s -> expand_promise (exec _clone s tr) = Fulfilled c.
Proof.
  intros Hs.
  assert (root_fulfilled c (exec _clone s tr)) as (Hst & (call & Hcall & Hp) & _).
  { apply (exec_invariant _clone (root_fulfilled c) (fun _ => True)).
    - intros s0 ev Hs0 _. now apply root_fulfilled_step.
    - exact Hs.
    - apply Forall_forall. auto. }
  unfold expand_promise. now rewrite Hst, Hcall.
Qed.

(** ** The recursive calls are not awaited *)

(** C1. A run of [expandReplies(root, {limit: 2, depth: 3})]: the request
    of the root is answered, then the request of its first reply (the
    second level of the three asked for) fails.  The call on that reply is
    rejected with the failure, yet the promise of [expandReplies] is
    fulfilled with the clone 5, and stays so whatever comes after. *)
Theorem nested_failure_does_not_reject :
  let s := exec (deep_clone 10) (expandReplies 0 (budget 2 3) thread)
             [FetchDone FetchOk; FetchMoreDone 0 same_replies;
              FetchMoreDone 0 (FmFail (ServiceError 503))] in
  map (fun c => (c_this c, c_depth c, c_promise c)) (calls s)
  = [(5, Fin 3, Fulfilled 5); (3, Fin 2, Rejected (ServiceError 503)); (4, Fin 2, Pending)] /\
  expand_promise s = Fulfilled 5 /\
  (forall tr, expand_promise (exec (deep_clone 10) s tr) = Fulfilled 5).
Proof.
  intros s. split; [reflexivity |]. split; [reflexivity |].
  intros tr. apply root_fulfilled_exec.
  split; [reflexivity |]. split.
  - eexists. split; reflexivity.
  - repeat constructor. discriminate.
Qed.

(** C2. A run of [expandReplies(root, {limit: 2, depth: 2})]: as soon as
    the request of the root is answered the promise of the call on the root,
    and with it the promise of [expandReplies], is fulfilled, while the two
    recursive calls it made on its replies are pending, their requests in
    flight; the reply 3 of the fulfilled result has no reply then, and gets
    one when its request is answered later. *)
Theorem fulfilled_before_recursive_calls :
  let s := exec (deep_clone 10) (expandReplies 0 (budget 2 2) thread)
             [FetchDone FetchOk; FetchMoreDone 0 same_replies] in
  expand_promise s = Fulfilled 5 /\
  map (fun c => (c_this c, c_depth c, c_promise c)) (calls s)
  = [(5, Fin 2, Fulfilled 5); (3, Fin 1, Pending); (4, Fin 1, Pending)] /\
  map (fun t => (t_call t, t_this t)) (pending s) = [(1, 3); (2, 4)] /\
  children (heap s) 5 = [3; 4] /\
  children (heap s) 3 = [] /\
  children (heap (step (deep_clone 10) s (FetchMoreDone 0 late_reply))) 3 = [6].
Proof. repeat split. Qed.

(** ** The theorems at work on the thread *)

Lemma expandReplies_leaves_original_witness :
  let s := exec (deep_clone 10) (expandReplies 0 (budget 2 2) thread)
             (FetchDone FetchOk :: sample_run) in
  children (heap s) 5 = [3; 4; 6] /\ children (heap s) 3 = [7] /\
  get_field (heap s) 0 "replies" = Some (VListing 0) /\
  lsts (heap s) !! 0 = Some [1; 2] /\
  children (heap s) 0 = [1; 2].
Proof.
  intros s. split; [reflexivity |]. split; [reflexivity |].
  destruct (expandReplies_leaves_original (deep_clone 10) thread 0 (budget 2 2)
              (FetchDone FetchOk :: sample_run)) as (_ & _ & _ & H).
  - reflexivity.
  - reflexivity.
  - reflexivity.
  - vm_compute. lia.
  - reflexivity.
  - apply (H (comment "t1_root" 0) 0 [1; 2]); reflexivity.
Defined.

Lemma expandReplies_depth_zero_witness :
  let s := exec (deep_clone 10) (expandReplies 0 (budget 2 0) thread)
             [FetchDone FetchOk; FetchMoreDone 0 same_replies] in
  expand_promise s = Fulfilled 5 /\ heap s = (deep_clone 10 thread 0).1 /\
  tree_of 3 (heap s) 5 = tree_of 3 thread 0.
Proof.
  intros s.
  destruct (expandReplies_depth_zero (deep_clone 10) thread 0 (Some (Fin 2)) (Fin 0)
              [FetchMoreDone 0 same_replies] 3) as (_ & _ & H1 & H2 & _ & H3).
  - reflexivity.
  - reflexivity.
  - reflexivity.
  - split; [exact H1 |]. split; [exact H2 | exact H3].
Defined.

Lemma expandReplies_keeps_replies_witness :
  let s := exec (deep_clone 10) (expandReplies 0 (budget 2 2) thread)
             (FetchDone FetchOk :: sample_run) in
  tree_le (tree_of 3 thread 0) (tree_of 3 (heap s) 5).
Proof.
  intros s.
  destruct (expandReplies_keeps_replies (deep_clone 10) thread 0 (budget 2 2) sample_run 3)
    as [H _].
  - reflexivity.
  - reflexivity.
  - reflexivity.
  - reflexivity.
  - exact H.
Defined.

Lemma limit_bounds_recursion_not_result_witness :
  let s := exec (deep_clone 10) (expandReplies 0 (budget 1 2) thread) [FetchDone FetchOk] in
  let s' := step (deep_clone 10) s (FetchMoreDone 0 same_replies) in
  children (heap s') 5 = [3; 4] /\
  map call_args (calls s') = [(5, Fin 1, Fin 2); (3, Fin 1, Fin 1)] /\
  ents (heap s') !! 4 = Some (comment "t1_b" 4).
Proof.
  intros s s'.
  destruct (limit_bounds_recursion_not_result (deep_clone 10) thread 0 (budget 1 2) [] 0
              {| t_call := 0; t_this := 5; t_key := "replies"; t_limit := Fin 1;
                 t_depth := Fin 2; t_listing := 5; t_amount := Fin (-1) |}
              [] [[3; 4]] 6 [3; 4]) as (H1 & H2 & _ & _ & H5).
  - reflexivity.
  - reflexivity.
  - reflexivity.
  - split; [exact H1 |]. split; [exact H2 |].
    apply (H5 [FetchMoreDone 0 same_replies] 4 (comment "t1_b" 4)); [reflexivity |].
    vm_compute. intros Hin. repeat (apply elem_of_cons in Hin as [Hin | Hin]; [discriminate |]).
    now apply elem_of_nil in Hin.
Defined.



(** ** The scenario of the spec *)

(** A comment with one reply that has no replies loaded, expanded with
    [{limit: 5, depth: 2}]: one request on the replies of the root for 4
    more, then one request for 5 on the replies of each of its replies, and
    no request below. *)
Example scenario_requests :
  let root : Heap := {| ents := [comment "t1_c" 0; comment "t1_d" 1]; lsts := [[1]; []] |} in
  let s := exec (deep_clone 10) (expandReplies 0 (budget 5 2) root)
             [ FetchDone FetchOk;
               FetchMoreDone 0 (FmOk [comment "t1_e" 5] [[2; 4]; []] 4);
               FetchMoreDone 0 (FmOk [comment "t1_f" 7] [[5]; []] 6);
               FetchMoreDone 0 (FmOk [] [[]] 8) ] in
  requests s = [(3, Fin 4); (2, Fin 5); (5, Fin 5)] /\
  pending s = [] /\
  map call_args (calls s)
  = [(3, Fin 5, Fin 2); (2, Fin 5, Fin 1); (4, Fin 5, Fin 1); (5, Fin 5, Fin 0)] /\
  children (heap s) 3 = [2; 4] /\ children (heap s) 2 = [5] /\ children (heap s) 4 = [] /\
  children (heap s) 0 = [1] /\ children (heap s) 1 = [].
Proof. repeat split. Qed.

(** * Further properties of the expansion *)

(** ** Failures that do reject *)

Lemma failed_exec _clone s e tr : stage s = Failed e -> exec _clone s tr = s.
Proof.
  intros Hst. induction tr as [| ev tr IH]; simpl; [reflexivity |].
  rewrite step_unexpected; [exact IH |].
  unfold expected. rewrite Hst. now destruct ev.
Qed.

Lemma mutate_no_listing this lim dep s :
  num_le0 dep = false -> field_listing (heap s) this = None ->
  _mutateAndExpandReplies this lim dep s
  = (push_call {| c_this := this; c_limit := lim; c_depth := dep;
                  c_promise := Rejected TypeError |} s, []).
Proof.
  unfold field_listing, _mutateAndExpandReplies. intros -> H.
  destruct (ents (heap s) !! this) as [e |]; [| reflexivity].
  destruct (prop_get (repliesKey e) (fields e)) as [[| | | | l] |]; try reflexivity.
  destruct (lsts (heap s) !! l); [discriminate | reflexivity].
Qed.

Lemma mutate_listing this lim dep s l items :
  num_le0 dep = false -> field_listing (heap s) this = Some (l, items) ->
  exists e,
    ents (heap s) !! this = Some e /\
    _mutateAndExpandReplies this lim dep s
    = (log_request l (num_sub_len lim (length items))
         (push_call {| c_this := this; c_limit := lim; c_depth := dep;
                       c_promise := Pending |} s),
       [ {| t_call := length (calls s); t_this := this; t_key := repliesKey e;
            t_limit := lim; t_depth := dep; t_listing := l;
            t_amount := num_sub_len lim (length items) |} ]).
Proof.
  unfold field_listing. intros Hdep H.
  destruct (ents (heap s) !! this) as [e |] eqn:He; [| discriminate].
  destruct (prop_get (repliesKey e) (fields e)) as [[| | | | l0] |] eqn:Hk;
    try discriminate.
  destruct (lsts (heap s) !! l0) as [its |] eqn:Hl; [| discriminate].
  injection H as -> ->. exists e. split; [reflexivity |].
  now apply mutate_request.
Qed.

Section Failures.

Variable _clone : Heap -> addr -> Heap * addr.

(** X1. When [this.fetch()] fails, the promise of [expandReplies] is
    rejected with that failure, and it stays so: no clone is made (the
    store is the one of the call), the recursive step is never called and
    no [fetchMore] is sent, whatever arrives afterwards. *)
Theorem refresh_failure_rejects
    (h : Heap) (E : addr) (options : ExpandOptions) (e : error) (tr : list event) :
  let s := exec _clone (expandReplies E options h) (FetchDone (FetchFail e) :: tr) in
  expand_promise s = Rejected e /\ heap s = h /\ calls s = [] /\
  requests s = [] /\ pending s = [].
Proof.
  intros s. subst s.
  change (exec _clone ?s0 (?ev :: tr)) with (exec _clone (step _clone s0 ev) tr).
  rewrite (failed_exec _ _ e) by reflexivity. repeat split.
Qed.

(** X2. When the [fetchMore] on the children of the clone itself fails
    (the first request of an expansion with [depth > 0]), the promise of
    [expandReplies] is rejected with that failure and stays so; the clone
    is left as it was made, no recursive call is made and no second request
    is sent. *)
Theorem root_listing_failure_rejects
    (h : Heap) (E : addr) (lim : option num) (dep : num) (e : error)
    (l : laddr) (items : list addr) (tr : list event) :
  num_le0 dep = false ->
  field_listing (_clone h E).1 (_clone h E).2 = Some (l, items) ->
  let s := exec _clone (expandReplies E {| limit := lim; depth := Some dep |} h)
             (FetchDone FetchOk :: FetchMoreDone 0 (FmFail e) :: tr) in
  expand_promise s = Rejected e /\ heap s = (_clone h E).1 /\
  map call_args (calls s) = [((_clone h E).2, default Inf lim, dep)] /\
  requests s = [(l, num_sub_len (default Inf lim) (length items))] /\
  pending s = [].
Proof.
  intros Hdep Hl s. subst s.
  change (exec _clone ?s0 (?ev1 :: ?ev2 :: tr))
    with (exec _clone (step _clone (step _clone s0 ev1) ev2) tr).
  cbn [step expandReplies stage after_fetch heap depth limit default from_option id].
  destruct (_clone h E) as [h1 c]. cbn [fst snd] in *.
  set (s0 := with_stage Expanding _).
  destruct (mutate_listing c (default Inf lim) dep s0 l items Hdep Hl) as (e0 & He0 & Hm).
  change (ents h1 !! c) with (ents (heap s0) !! c). rewrite He0, Hm.
  rewrite settled_exec by reflexivity. repeat split.
Qed.

(** X3. When the children field of the clone holds no Listing (the field
    is missing, as [comments] on a Comment's clone would be, or holds
    something else) and [depth > 0], the member call throws: the promise of
    [expandReplies] is rejected with a [TypeError], and no [fetchMore] is
    sent. *)
Theorem missing_children_field_rejects
    (h : Heap) (E : addr) (lim : option num) (dep : num) (tr : list event) :
  num_le0 dep = false ->
  is_entity (_clone h E).1 (_clone h E).2 = true ->
  field_listing (_clone h E).1 (_clone h E).2 = None ->
  let s := exec _clone (expandReplies E {| limit := lim; depth := Some dep |} h)
             (FetchDone FetchOk :: tr) in
  expand_promise s = Rejected TypeError /\ heap s = (_clone h E).1 /\
  requests s = [] /\ pending s = [].
Proof.
  intros Hdep Hc Hl s. subst s.
  change (exec _clone ?s0 (?ev1 :: tr)) with (exec _clone (step _clone s0 ev1) tr).
  cbn [step expandReplies stage after_fetch heap depth limit default from_option id].
  destruct (_clone h E) as [h1 c]. cbn [fst snd] in *.
  apply Nat.ltb_lt, lookup_lt_is_Some_2 in Hc. destruct Hc as [ec Hc]. rewrite Hc.
  set (s0 := with_stage Expanding _).
  rewrite (mutate_no_listing c (default Inf lim) dep s0 Hdep Hl).
  rewrite settled_exec by reflexivity. repeat split.
Qed.

End Failures.

(** ** What the promise is fulfilled with *)

Section Result.

Variable _clone : Heap -> addr -> Heap * addr.

Lemma result_inv_step h E options s ev :
  result_inv (expandReplies E options h) (_clone h E).2 s ->
  result_inv (expandReplies E options h) (_clone h E).2 (step _clone s ev).
Proof.
  intros Hinv.
  destruct (expected s ev) eqn:Hexp; [| now rewrite step_unexpected].
  unfold result_inv in Hinv. unfold expected in Hexp.
  destruct (stage s) as [this lim dep | |] eqn:Hst; destruct ev as [r | i r];
    try discriminate.
  - subst s. destruct r as [| e]; [| exact I].
    destruct (ents (_clone h E).1 !! (_clone h E).2) as [ec |] eqn:Hc.
    + destruct (expanding_inv_started _clone h E options ec Hc) as (Hst' & _ & Hroot).
      unfold result_inv. now rewrite Hst'.
    + simpl. destruct (_clone h E) as [h1 c]. simpl in Hc. rewrite Hc. exact I.
  - apply bool_decide_eq_true in Hexp.
    destruct (lookup_lt_is_Some_2 _ _ Hexp) as [t Ht].
    rewrite (step_fetchMore _ _ _ _ _ Hst Ht).
    unfold result_inv. cbn [with_pending stage]. rewrite resume_stage, Hst.
    now apply root_inv_fetchMore.
Qed.

(** X4. Whatever the options and whatever the environment answers, when
    the promise of [expandReplies] is fulfilled its value is the deep clone
    made after the refresh: never the entity the method was called on (when
    the clone is another object), and never one of the replies. *)
Theorem result_is_the_clone
    (h : Heap) (E : addr) (options : ExpandOptions) (tr : list event) (r : addr) :
  expand_promise (exec _clone (expandReplies E options h) tr) = Fulfilled r ->
  r = (_clone h E).2.
Proof.
  intros Hr.
  assert (result_inv (expandReplies E options h) (_clone h E).2
            (exec _clone (expandReplies E options h) tr)) as Hinv.
  { apply (exec_invariant _clone _ (fun _ => True)).
    - intros s ev Hs _. now apply result_inv_step.
    - reflexivity.
    - apply Forall_forall. auto. }
  unfold result_inv in Hinv. unfold expand_promise in Hr.
  destruct (stage _); try discriminate.
  destruct Hinv as (_ & _ & Hroot).
  destruct (calls _ !! 0) as [call |] eqn:Hcall; [| discriminate].
  eapply Hroot; eauto.
Qed.

End Result.

(** ** Invariants of a whole expansion *)

Section WholeRun.

Variable _clone : Heap -> addr -> Heap * addr.

(** The state [this.fetch()] leaves, by cases. *)
Lemma after_fetch_cases (E : addr) (options : ExpandOptions) (h : Heap) (r : fetch_response) :
  let lim := default Inf (limit options) in
  let dep := default Inf (depth options) in
  let s := step _clone (expandReplies E options h) (FetchDone r) in
  let c := (_clone h E).2 in
  (exists e, stage s = Failed e /\ calls s = [] /\ pending s = [] /\ requests s = []) \/
  (stage s = Expanding /\ heap s = (_clone h E).1 /\ pending s = [] /\ requests s = [] /\
   exists p, calls s = [ {| c_this := c; c_limit := lim; c_depth := dep; c_promise := p |} ]
             /\ p <> Pending) \/
  (stage s = Expanding /\ heap s = (_clone h E).1 /\ num_le0 dep = false /\
   exists e l items,
     ents (heap s) !! c = Some e /\
     field_listing (heap s) c = Some (l, items) /\
     pending s = [ {| t_call := 0; t_this := c; t_key := repliesKey e; t_limit := lim;
                      t_depth := dep; t_listing := l;
                      t_amount := num_sub_len lim (length items) |} ] /\
     requests s = [(l, num_sub_len lim (length items))] /\
     calls s = [ {| c_this := c; c_limit := lim; c_depth := dep; c_promise := Pending |} ]).
Proof.
  intros lim dep s c. subst s c.
  cbn [step expandReplies stage]. fold lim dep.
  destruct r as [| e]; [| left; exists e; auto].
  unfold after_fetch. cbn [heap expandReplies].
  destruct (_clone h E) as [h1 c]. cbn [fst snd].
  destruct (ents h1 !! c) as [ec |] eqn:Hc; [| left; exists TypeError; auto].
  set (s0 := with_stage Expanding _). right.
  destruct (num_le0 dep) eqn:Hdep.
  - left. rewrite mutate_base by exact Hdep. cbn.
    do 4 (split; [reflexivity |]).
    eexists. split; [reflexivity | discriminate].
  - destruct (field_listing (heap s0) c) as [[l items] |] eqn:Hl.
    + right. destruct (mutate_listing c lim dep s0 l items Hdep Hl) as (e & He & ->).
      cbn. do 3 (split; [reflexivity |]). exists e, l, items.
      split; [exact He |]. split; [exact Hl |]. repeat split.
    + left. rewrite (mutate_no_listing c lim dep s0 Hdep Hl). cbn.
      do 4 (split; [reflexivity |]).
      eexists. split; [reflexivity | discriminate].
Qed.

(** A property that holds when [this.fetch()] is answered and that every
    continuation keeps holds after the answer, along every trace. *)
Lemma from_start_exec (I : State -> Prop) (E : addr) (options : ExpandOptions) (h : Heap) :
  (forall r, I (step _clone (expandReplies E options h) (FetchDone r))) ->
  (forall s i r t, stage s = Expanding -> pending s !! i = Some t -> I s ->
     I (with_pending (take i (pending s) ++ (resume t r s).2 ++ drop (S i) (pending s))
                     (resume t r s).1)) ->
  forall tr, from_start (expandReplies E options h) I
               (exec _clone (expandReplies E options h) tr).
Proof.
  intros Hfetch Hresume tr.
  apply (exec_invariant _clone _ (fun _ => True)).
  - intros s ev Hs _.
    destruct (expected s ev) eqn:Hexp; [| now rewrite step_unexpected].
    unfold from_start in Hs. unfold expected in Hexp.
    destruct (stage s) as [this lim dep | |] eqn:Hst; destruct ev as [r | i r];
      try discriminate.
    + subst s. specialize (Hfetch r). unfold from_start.
      destruct (stage (step _clone (expandReplies E options h) (FetchDone r))) eqn:Hst';
        [| exact Hfetch | exact Hfetch].
      exfalso.
      destruct (after_fetch_cases E options h r)
        as [(e & He & _) | [(He & _) | (He & _)]]; congruence.
    + apply bool_decide_eq_true in Hexp.
      destruct (lookup_lt_is_Some_2 _ _ Hexp) as [t Ht].
      rewrite (step_fetchMore _ _ _ _ _ Hst Ht).
      unfold from_start. cbn [with_pending stage]. rewrite resume_stage, Hst.
      now apply Hresume.
  - reflexivity.
  - apply Forall_forall. auto.
Qed.

End WholeRun.

(** ** What a continuation adds to the log *)

Lemma resume_call_args t r s :
  exists targets,
    map call_args (calls (resume t r s).1)
    = map call_args (calls s)
      ++ map (fun a => (a, t_limit t, num_pred (t_depth t))) targets.
Proof.
  destruct r as [e | ne nl l].
  - exists []. simpl. now rewrite map_call_args_alter, app_nil_r.
  - destruct ((lsts (heap s) ++ nl) !! l) as [items |] eqn:Hl.
    + destruct (resume_log t ne nl l s items Hl) as (k & Hlog & _). eauto.
    + exists []. unfold resume. set (s1 := with_heap _ s).
      assert (lsts (heap s1) !! l = None) as ->
          by (unfold s1; simpl; now rewrite set_field_lsts).
      simpl. now rewrite map_call_args_alter, app_nil_r.
Qed.





Lemma map_calls_base targets lim dep s :
  num_le0 dep = true ->
  (map_calls targets lim dep s).1.2 = [] /\
  exists more, calls (map_calls targets lim dep s).1.1 = calls s ++ more /\
               Forall (fun c => c_promise c <> Pending) more.
Proof.
  intros Hdep. revert s. induction targets as [| a rest IH]; intros s; simpl.
  - split; [reflexivity |]. exists []. now rewrite app_nil_r.
  - destruct (ents (heap s) !! a);
      [| split; [reflexivity |]; exists []; now rewrite app_nil_r].
    rewrite mutate_base by exact Hdep.
    destruct (IH (push_call {| c_this := a; c_limit := lim; c_depth := dep;
                               c_promise := Fulfilled a |} s)) as (Hts & more & Hc & Hm).
    destruct (map_calls rest lim dep _) as [[s2 ts2] ok]. simpl in *.
    split; [exact Hts |]. eexists. rewrite Hc, <- app_assoc. split; [reflexivity |].
    constructor; [discriminate | exact Hm].
Qed.

(** At the last level the calls of a continuation are settled at once. *)
Lemma resume_shallow t r s :
  num_le0 (num_pred (t_depth t)) = true ->
  (resume t r s).2 = [] /\
  exists more p,
    calls (resume t r s).1 = alter (with_promise p) (t_call t) (calls s ++ more) /\
    p <> Pending /\ Forall (fun c => c_promise c <> Pending) more.
Proof.
  intros Hdep. destruct r as [e | ne nl l].
  - split; [reflexivity |]. exists [], (Rejected e). simpl. rewrite app_nil_r.
    split; [reflexivity |]. split; [discriminate | constructor].
  - unfold resume. set (s1 := with_heap _ s).
    destruct (lsts (heap s1) !! l) as [items |].
    + destruct (map_calls_base (slice0 (t_limit t) items) (t_limit t)
                  (num_pred (t_depth t)) s1 Hdep) as (Hts & more & Hc & Hm).
      destruct (map_calls _ _ _ s1) as [[s2 ts] ok]. simpl in *.
      split; [exact Hts |]. exists more. eexists. rewrite Hc.
      split; [reflexivity |]. split; [destruct ok; discriminate | exact Hm].
    + split; [reflexivity |]. exists [], (Rejected TypeError). simpl. rewrite app_nil_r.
      split; [reflexivity |]. split; [discriminate | constructor].
Qed.

(** ** Depth one, arguments of the calls, and the budget of requests *)


(** [1 + L + ... + L^(D-1)], in closed form. *)
Lemma request_bound_geometric L D :
  1 <= L -> request_bound L D * (L - 1) + 1 = L ^ D.
Proof.
  intros HL. induction D as [| D IH]; [reflexivity |].
  cbn [request_bound Nat.pow]. nia.
Qed.


Section Budget.

Variable _clone : Heap -> addr -> Heap * addr.

(** X5. With a depth of at most one the recursive calls are all base
    cases, so nothing is left behind: at every moment of the expansion,
    either the promise of [expandReplies] is still pending, or no request
    is in flight and every call of the recursive step is settled. *)
Theorem depth_one_is_complete
    (h : Heap) (E : addr) (lim : option num) (dep : num) (tr : list event) :
  num_le0 (num_pred dep) = true ->
  let s := exec _clone (expandReplies E {| limit := lim; depth := Some dep |} h) tr in
  expand_promise s = Pending \/
  (pending s = [] /\ Forall (fun c => c_promise c <> Pending) (calls s)).
Proof.
  intros Hdep s.
  assert (from_start (expandReplies E {| limit := lim; depth := Some dep |} h)
            (shallow_inv dep) s) as Hinv.
  { apply from_start_exec.
    - intros r.
      destruct (after_fetch_cases _clone E {| limit := lim; depth := Some dep |} h r)
        as [(e & _ & Hc & Hp & _) | [(_ & _ & Hp & _ & p & Hc & Hne) | H]].
      + right. rewrite Hc, Hp. auto.
      + right. rewrite Hc, Hp. split; [reflexivity |]. repeat constructor. exact Hne.
      + destruct H as (Hst & _ & _ & e & l & items & _ & _ & Hp & _ & Hc).
        left. split; [exact Hst |]. eexists. eexists. rewrite Hp, Hc. repeat split.
    - intros s0 i r t Hst Ht [(_ & t0 & c & Hp & Hcall & Hd & Hc & Hpc) | [Hp _]];
        [| rewrite Hp in Ht; discriminate].
      rewrite Hp in Ht. destruct i; [| discriminate]. injection Ht as <-.
      rewrite <- Hd in Hdep.
      destruct (resume_shallow t0 r s0 Hdep) as (Hts & more & p & Hcalls & Hne & Hm).
      right. cbn [with_pending pending calls]. rewrite Hts, Hp, Hcalls, Hc, Hcall.
      split; [reflexivity |]. simpl. constructor; [exact Hne | exact Hm]. }
  unfold from_start in Hinv. unfold expand_promise.
  destruct (stage s) eqn:Hst; [now left | |].
  - destruct Hinv as [(_ & t0 & c & _ & _ & _ & Hc & Hpc) | H]; [| now right].
    left. now rewrite Hc.
  - destruct Hinv as [(Hst' & _) | H]; [congruence | now right].
Qed.

(** X6. In an expansion with the depth [d >= 0], every call of the
    recursive step has the limit of the options and an integer depth from
    0 to [d]: the limit is handed down as it is and the depth never goes
    below zero. *)
Theorem calls_keep_limit_and_depth
    (h : Heap) (E : addr) (lim : option num) (d : Z) (tr : list event) (c : Call) :
  (0 <= d)%Z ->
  c ∈ calls (exec _clone (expandReplies E {| limit := lim; depth := Some (Fin d) |} h) tr) ->
  c_limit c = default Inf lim /\ exists k, c_depth c = Fin k /\ (0 <= k <= d)%Z.
Proof.
  intros Hd Hc.
  set (start := expandReplies E {| limit := lim; depth := Some (Fin d) |} h) in *.
  assert (from_start start (args_inv (default Inf lim) d) (exec _clone start tr)) as Hinv.
  { apply from_start_exec.
    - intros r.
      destruct (after_fetch_cases _clone E {| limit := lim; depth := Some (Fin d) |} h r)
        as [(e & _ & Hcs & Hp & _) | [(_ & _ & Hp & _ & p & Hcs & Hne) | H]].
      + split; rewrite ?Hcs, ?Hp; constructor.
      + split; rewrite ?Hcs, ?Hp; repeat constructor. simpl. exists d. split; [auto | lia].
      + destruct H as (_ & _ & Hle & e & l & items & _ & _ & Hp & _ & Hcs).
        simpl in Hle. apply Z.leb_gt in Hle.
        split; rewrite ?Hcs, ?Hp; repeat constructor; simpl; exists d; split; auto; lia.
    - intros s i r t Hst Ht (Hcalls & Hpend).
      pose proof (Forall_lookup_1 _ _ _ _ Hpend Ht) as (Hlim & k & Hk & Hk0).
      destruct (resume_call_args t r s) as (targets & Hargs).
      split; cbn [with_pending pending calls].
      + rewrite Hargs. apply Forall_app. split; [exact Hcalls |].
        apply Forall_map. apply Forall_forall. intros a _. simpl.
        split; [exact Hlim |]. rewrite Hk. simpl. exists (k - 1)%Z. split; [auto | lia].
      + apply Forall_app. split; [now apply Forall_take |].
        apply Forall_app. split; [| now apply Forall_drop].
        eapply Forall_impl; [apply resume_tasks |].
        intros t' (id & ne & nl & l & items & _ & _ & _ & _ & Hsp).
        destruct Hsp as (_ & _ & Hl' & Hd' & Hle & _).
        rewrite Hk in Hd', Hle. simpl in Hle. apply Z.leb_gt in Hle.
        split; [congruence |]. exists (k - 1)%Z. split; [exact Hd' | lia]. }
  unfold from_start in Hinv.
  assert (args_inv (default Inf lim) d (exec _clone start tr)) as [Hcalls _].
  { destruct (stage (exec _clone start tr)); [| exact Hinv | exact Hinv].
    rewrite Hinv. split; constructor. }
  rewrite Forall_map, Forall_forall in Hcalls. apply (Hcalls c Hc).
Qed.


End Budget.

(** ** What is written of a node *)

Section Fields.

Variable _clone : Heap -> addr -> Heap * addr.

Lemma started_heap h E options :
  heap (step _clone (expandReplies E options h) (FetchDone FetchOk)) = (_clone h E).1.
Proof.
  cbn [step expandReplies stage]. unfold after_fetch. cbn [heap expandReplies].
  destruct (_clone h E) as [h1 c]. cbn [fst snd].
  destruct (ents h1 !! c) as [ec |]; [| reflexivity].
  set (s0 := with_stage Expanding _).
  pose proof (mutate_heap c (default Inf (limit options))
                (default Inf (depth options)) s0) as Hm.
  destruct (_mutateAndExpandReplies _ _ _ s0) as [s1 ts]. exact Hm.
Qed.

Lemma fields_inv_step h1 s ev :
  log_inv h1 s -> fields_inv h1 s -> fields_inv h1 (step _clone s ev).
Proof.
  intros (Hst & Htasks & _) Hf.
  destruct (expected s ev) eqn:Hexp; [| now rewrite step_unexpected].
  unfold expected in Hexp.
  destruct ev as [r | i r], (stage s) as [this lim d | |] eqn:Hstage; try discriminate.
  { destruct Hst as [Hst | (_ & e & Hst)]; discriminate. }
  apply bool_decide_eq_true in Hexp.
  destruct (lookup_lt_is_Some_2 _ _ Hexp) as [t Ht].
  rewrite (step_fetchMore _ _ _ _ _ Hstage Ht).
  pose proof (Forall_lookup_1 _ _ _ _ Htasks Ht) as (_ & e0 & He0 & Hk0).
  intros a e Ha. cbn [with_pending heap].
  destruct (Hf a e Ha) as (e' & He' & Hn & Hother).
  destruct (decide (a = t_this t)) as [-> | Hne].
  - destruct r as [err | ne nl l].
    + rewrite resume_heap. eauto.
    + rewrite (resume_this _ _ _ _ _ _ He'). eexists. split; [reflexivity |].
      simpl. split; [exact Hn |]. intros k Hk.
      rewrite prop_get_set_ne; [now apply Hother |].
      rewrite He0 in He'. injection He' as ->.
      rewrite Hk0. unfold repliesKey in *. now rewrite Hn.
  - rewrite (resume_other _ _ _ _ _ Hne He'). eauto.
Qed.

(** X8. Of the entities of the clone the expansion writes the children
    field and nothing else: at every moment each entity there was when the
    clone was made is in the store with its kind, and every field other
    than its children field ([comments] on a Submission, [replies]
    elsewhere) has the value it had. *)
Theorem only_the_children_field_is_written
    (h : Heap) (E : addr) (options : ExpandOptions) (tr : list event)
    (a : addr) (e : Entity) :
  ents (_clone h E).1 !! a = Some e ->
  let s := exec _clone (expandReplies E options h) (FetchDone FetchOk :: tr) in
  exists e', ents (heap s) !! a = Some e' /\ _name e' = _name e /\
             forall k, k <> repliesKey e -> prop_get k (fields e') = prop_get k (fields e).
Proof.
  intros Ha s. subst s.
  change (exec _clone ?s0 (?ev :: tr)) with (exec _clone (step _clone s0 ev) tr).
  assert (log_inv (_clone h E).1 (exec _clone (step _clone (expandReplies E options h)
                                                 (FetchDone FetchOk)) tr) /\
          fields_inv (_clone h E).1 (exec _clone (step _clone (expandReplies E options h)
                                                    (FetchDone FetchOk)) tr)) as [_ Hf].
  { apply (exec_invariant _clone
             (fun s => log_inv (_clone h E).1 s /\ fields_inv (_clone h E).1 s)
             (fun _ => True)).
    - intros s ev [Hl Hf] _. split; [now apply log_inv_step | now apply fields_inv_step].
    - split; [apply log_inv_started |].
      intros a0 e0 Ha0. rewrite started_heap. eauto.
    - apply Forall_forall. auto. }
  exact (Hf a e Ha).
Qed.

End Fields.

(** ** A negative limit *)

Lemma slice0_negative {A : Type} (z : Z) (l : list A) :
  (z < 0)%Z -> slice0 (Fin z) l = take (length l - Z.to_nat (- z)) l.
Proof.
  intros Hz. unfold slice0.
  destruct (Z.ltb_spec z 0) as [_ | Hge]; [| lia].
  f_equal. lia.
Qed.

(** X9. A negative limit is not refused: [slice(0, limit)] then counts
    from the end, and the continuation calls the recursive step on every
    item of its Listing but the last [-limit] (each an entity), with the
    same limit and the depth less one. *)
Theorem negative_limit_counts_from_the_end
    (t : Task) (s : State) (new_ents : list Entity) (new_lsts : list Listing)
    (l : laddr) (items : list addr) (z : Z) :
  t_limit t = Fin z -> (z < 0)%Z ->
  (lsts (heap s) ++ new_lsts) !! l = Some items ->
  forallb (fun a => a <? length (ents (heap s)) + length new_ents)
          (take (length items - Z.to_nat (- z)) items) = true ->
  map call_args (calls (resume t (FmOk new_ents new_lsts l) s).1)
  = map call_args (calls s)
    ++ map (fun a => (a, Fin z, num_pred (t_depth t)))
           (take (length items - Z.to_nat (- z)) items).
Proof.
  intros Hlim Hz Hl Hvalid.
  destruct (resume_log t new_ents new_lsts l s items Hl) as (k & Hlog & _ & Hall).
  rewrite Hlim in Hlog, Hall. rewrite slice0_negative in Hlog, Hall by exact Hz.
  destruct (Hall Hvalid) as [-> _]. now rewrite firstn_all in Hlog.
Qed.

(** ** The default depth *)

Lemma slice0_one (lim : num) (a : nat) : admits_one lim = true -> slice0 lim [a] = [a].
Proof.
  destruct lim as [z |]; simpl; [| reflexivity]. intros Hz. apply Z.leb_le in Hz.
  destruct (Z.ltb_spec z 0); [lia |].
  replace (Z.to_nat (Z.min z (Z.of_nat 1))) with 1 by lia. reflexivity.
Qed.

(** An activation with the depth [Infinity] can be answered so that it
    leaves another one. *)
Lemma endless_step _clone s i t :
  stage s = Expanding -> pending s !! i = Some t -> endless t s ->
  exists s', next _clone s' s /\ stage s' = Expanding /\
             exists t', pending s' !! i = Some t' /\ endless t' s'.
Proof.
  intros Hst Ht (Hdep & Hthis & Hlim).
  set (n := length (ents (heap s))). set (m := length (lsts (heap s))).
  set (r := FmOk [comment "" (S m)] [[n]; []] m).
  exists (step _clone s (FetchMoreDone i r)). split.
  { exists (FetchMoreDone i r). split; [| reflexivity].
    unfold expected. rewrite Hst. apply bool_decide_eq_true.
    eapply lookup_lt_Some; eauto. }
  rewrite (step_fetchMore _ _ _ _ _ Hst Ht). cbn [with_pending stage pending].
  split; [now rewrite resume_stage |].
  assert (exists t', (resume t r s).2 = [t'] /\ t_depth t' = Inf /\ t_this t' = n /\
                     t_limit t' = t_limit t) as (t' & Hts & Hd' & Hn' & Hl').
  { unfold r, resume. set (s1 := with_heap _ s).
    assert (lsts (heap s1) !! m = Some [n]) as ->.
    { unfold s1. cbn [with_heap heap]. rewrite set_field_lsts. cbn [alloc lsts].
      rewrite lookup_app_r by (unfold m; lia).
      now replace (m - length (lsts (heap s))) with 0 by (unfold m; lia). }
    rewrite slice0_one by exact Hlim. cbn [map_calls].
    assert (ents (heap s1) !! n = Some (comment "" (S m))) as Hn.
    { unfold s1. cbn [with_heap heap]. rewrite set_field_other by (unfold n; lia).
      cbn [alloc ents]. rewrite lookup_app_r by (unfold n; lia).
      now replace (n - length (ents (heap s))) with 0 by (unfold n; lia). }
    rewrite Hn.
    assert (field_listing (heap s1) n = Some (S m, [])) as Hfl.
    { unfold field_listing. rewrite Hn. cbn.
      unfold s1. cbn [with_heap heap]. rewrite set_field_lsts. cbn [alloc lsts].
      rewrite lookup_app_r by (unfold m; lia).
      now replace (S m - length (lsts (heap s))) with 1 by (unfold m; lia). }
    rewrite Hdep. cbn [num_pred].
    destruct (mutate_listing n (t_limit t) Inf s1 (S m) [] eq_refl Hfl) as (e & _ & ->).
    cbn. eexists. split; [reflexivity |]. auto. }
  rewrite Hts. exists t'. split.
  - apply list_lookup_middle. rewrite length_take.
    apply lookup_lt_Some in Ht. lia.
  - split; [exact Hd' |]. split; [| now rewrite Hl'].
    cbn [with_pending heap].
    rewrite Hn', resume_heap. unfold r. rewrite set_field_length.
    cbn [alloc ents]. rewrite length_app. simpl. unfold n. lia.
Qed.

Lemma endless_not_acc _clone s :
  Acc (next _clone) s ->
  stage s = Expanding -> forall i t, pending s !! i = Some t -> endless t s -> False.
Proof.
  induction 1 as [s _ IH]. intros Hst i t Ht Hend.
  destruct (endless_step _clone s i t Hst Ht Hend) as (s' & Hnext & Hst' & t' & Ht' & Hend').
  exact (IH s' Hnext Hst' i t' Ht' Hend').
Qed.

Section DefaultDepth.

Variable _clone : Heap -> addr -> Heap * addr.

(** X10. With the depth [Infinity] (the default) nothing in the code stops
    the recursion: when the children field of the clone holds a Listing and
    the limit is [Infinity] or at least 1, the expansion has a run that
    never ends, each answer bringing a reply on which the step is called
    again.  The expansion ends only when the Listings stop supplying
    replies. *)
Theorem unbounded_depth_need_not_end
    (h : Heap) (E : addr) (lim dep : option num) (l : laddr) (items : list addr) :
  default Inf dep = Inf ->
  admits_one (default Inf lim) = true ->
  field_listing (_clone h E).1 (_clone h E).2 = Some (l, items) ->
  ~ Acc (next _clone) (expandReplies E {| limit := lim; depth := dep |} h).
Proof.
  intros Hdep Hlim Hl Hacc.
  set (start := expandReplies E {| limit := lim; depth := dep |} h) in *.
  assert (next _clone (step _clone start (FetchDone FetchOk)) start) as Hnext.
  { exists (FetchDone FetchOk). split; reflexivity. }
  apply (Acc_inv Hacc) in Hnext. clear Hacc. subst start.
  destruct (after_fetch_cases _clone E {| limit := lim; depth := dep |} h FetchOk)
    as [(e & Hst & _) | [(_ & Hh & Hp & Hr & p & Hc & Hne) | H]].
  - clear Hnext. revert Hst.
    cbn [step expandReplies stage]. unfold after_fetch. cbn [heap expandReplies].
    unfold field_listing in Hl.
    destruct (_clone h E) as [h1 c]. cbn [fst snd] in *.
    destruct (ents h1 !! c) as [ec |]; [| discriminate].
    set (s0 := with_stage Expanding _).
    pose proof (mutate_stage c (default Inf lim) (default Inf dep) s0) as Hm.
    destruct (_mutateAndExpandReplies _ _ _ s0) as [s1 ts]. simpl in *.
    rewrite Hm. discriminate.
  - clear Hnext Hh Hc. revert Hp Hr.
    cbn [step expandReplies stage]. unfold after_fetch. cbn [heap expandReplies limit depth].
    destruct (_clone h E) as [h1 c]. cbn [fst snd] in *.
    set (s0 := with_stage Expanding _).
    assert (num_le0 (default Inf dep) = false) as Hle by now rewrite Hdep.
    destruct (mutate_listing c (default Inf lim) (default Inf dep) s0 l items Hle Hl)
      as (e0 & He0 & Hm).
    change (ents h1 !! c) with (ents (heap s0) !! c). rewrite He0, Hm.
    cbn. discriminate.
  - destruct H as (Hst & Hh & _ & e & l0 & items0 & He & _ & Hp & _).
    apply (endless_not_acc _clone _ Hnext Hst 0 _ ltac:(rewrite Hp; reflexivity)).
    split; [exact Hdep |]. split; [| exact Hlim].
    simpl. eapply lookup_lt_Some; eauto.
Qed.

End DefaultDepth.

(** * Properties of the one-shot actions *)

Lemma post_then_this_outcome (R1 R2 : Type) (p1 : Request -> error + R1)
    (p2 : Request -> error + R2) (this : addr) (req : Request) :
  outcome p1 req = outcome p2 req ->
  post_then_this R1 p1 this req = post_then_this R2 p2 this req.
Proof.
  unfold outcome, post_then_this. intros H.
  destruct (p1 req), (p2 req); congruence.
Qed.

(** X11. Every action but [edit] looks at nothing of the answer except
    whether the request failed: two requesters that fail on the same
    requests with the same errors, whatever the bodies they answer with,
    give the same request and the same promise for [upvote], [downvote],
    [unvote], [save], [unsave], [gild], [enableInboxReplies],
    [disableInboxReplies], [delete], [distinguish] and [undistinguish]. *)
Theorem actions_ignore_the_body
    (R1 R2 : Type) (p1 : Request -> error + R1) (p2 : Request -> error + R2)
    (str : value -> string) (h : Heap) (this : addr) :
  (forall req, outcome p1 req = outcome p2 req) ->
  upvote R1 p1 h this = upvote R2 p2 h this /\
  downvote R1 p1 h this = downvote R2 p2 h this /\
  unvote R1 p1 h this = unvote R2 p2 h this /\
  save R1 p1 h this = save R2 p2 h this /\
  unsave R1 p1 h this = unsave R2 p2 h this /\
  gild R1 p1 str h this = gild R2 p2 str h this /\
  enableInboxReplies R1 p1 h this = enableInboxReplies R2 p2 h this /\
  disableInboxReplies R1 p1 h this = disableInboxReplies R2 p2 h this /\
  delete_ R1 p1 h this = delete_ R2 p2 h this /\
  (forall options,
      distinguish (outcome p1) h this options = distinguish (outcome p2) h this options) /\
  undistinguish (outcome p1) h this = undistinguish (outcome p2) h this.
Proof.
  intros H.
  assert (forall req, post_then_this R1 p1 this req = post_then_this R2 p2 this req) as Hp
      by (intros; now apply post_then_this_outcome).
  assert (forall state,
            (let '(req, res) := _setInboxRepliesEnabled R1 p1 h this state in
             (req, match res with inr _ => Fulfilled this | inl e => Rejected e end))
            = (let '(req, res) := _setInboxRepliesEnabled R2 p2 h this state in
               (req, match res with inr _ => Fulfilled this | inl e => Rejected e end)))
    as Hinbox.
  { intros state. unfold _setInboxRepliesEnabled.
    set (req := {| url := _; form := _ |}). specialize (H req). unfold outcome in H.
    destruct (p1 req), (p2 req); congruence. }
  repeat split; try apply Hp; try apply Hinbox.
  - intros options. unfold distinguish. now rewrite H.
  - unfold undistinguish, distinguish. now rewrite H.
Qed.


(** X13. An action reads nothing of its entity but the [name]: on two
    entities with the same name (an entity and its clone, say) every
    action sends the same request, and on an entity with no [name] the
    request is sent all the same, with [undefined] for the id. *)
Theorem actions_read_only_the_name
    (R : Type) (_post : Request -> error + R) (handleJsonErrors : R -> option error)
    (str : value -> string) (h h' : Heap) (a b : addr) :
  get_field h a "name" = get_field h' b "name" ->
  (forall d, (_vote R _post h a d).1 = (_vote R _post h' b d).1) /\
  (save R _post h a).1 = (save R _post h' b).1 /\
  (unsave R _post h a).1 = (unsave R _post h' b).1 /\
  (forall text, (edit R _post handleJsonErrors h a text).1
                = (edit R _post handleJsonErrors h' b text).1) /\
  (gild R _post str h a).1 = (gild R _post str h' b).1 /\
  (forall state, (_setInboxRepliesEnabled R _post h a state).1
                 = (_setInboxRepliesEnabled R _post h' b state).1) /\
  (delete_ R _post h a).1 = (delete_ R _post h' b).1 /\
  (forall options, (distinguish (outcome _post) h a options).1
                   = (distinguish (outcome _post) h' b options).1) /\
  (get_field h a "name" = None ->
   (save R _post h a).1 = {| url := "api/save"; form := [("id", VUndefined)] |} /\
   (delete_ R _post h a).1 = {| url := "api/del"; form := [("id", VUndefined)] |}).
Proof.
  intros Hname.
  assert (this_name h a = this_name h' b) as Hn by (unfold this_name; now rewrite Hname).
  unfold _vote, save, unsave, edit, gild, _setInboxRepliesEnabled, delete_, distinguish,
    post_then_this. cbn [fst snd]. fold (this_name h a) (this_name h' b).
  rewrite Hn.
  do 8 (split; [reflexivity |]).
  intros Hnone. unfold this_name. rewrite <- Hname, Hnone. split; reflexivity.
Qed.

(** X14. [gild] puts the name of the entity at the end of the URL and sends
    no form; when the entity has no [name] the URL ends in [undefined],
    and the request is sent all the same. *)
Theorem gild_url
    (R : Type) (_post : Request -> error + R) (str : value -> string)
    (h : Heap) (this : addr) :
  (forall n, str (VStr n) = n) ->
  str VUndefined = "undefined" ->
  (forall n, get_field h this "name" = Some (VStr n) ->
             (gild R _post str h this).1
             = {| url := "api/v1/gold/gild/" ++ n; form := [] |}) /\
  (get_field h this "name" = None ->
   (gild R _post str h this).1 = {| url := "api/v1/gold/gild/undefined"; form := [] |}) /\
  (gild R _post str h this).2
  = match _post (gild R _post str h this).1 with
    | inr _ => Fulfilled this
    | inl e => Rejected e
    end.
Proof.
  intros Hstr Hundef. unfold gild, post_then_this, this_name. cbn [fst snd].
  repeat split.
  - intros n ->. cbn. now rewrite Hstr.
  - intros ->. cbn. now rewrite Hundef.
Qed.

(** ** The further properties at work *)

Lemma root_listing_failure_rejects_witness :
  expand_promise
    (exec (deep_clone 10) (expandReplies 0 (budget 2 3) thread)
       [FetchDone FetchOk; FetchMoreDone 0 (FmFail (ServiceError 503));
        FetchMoreDone 0 same_replies])
  = Rejected (ServiceError 503).
Proof.
  destruct (root_listing_failure_rejects (deep_clone 10) thread 0 (Some (Fin 2)) (Fin 3)
              (ServiceError 503) 5 [3; 4] [FetchMoreDone 0 same_replies]) as [H _].
  - reflexivity.
  - reflexivity.
  - exact H.
Defined.

Lemma missing_children_field_rejects_witness :
  expand_promise
    (exec (deep_clone 10) (expandReplies 0 (budget 2 3) odd_post) [FetchDone FetchOk])
  = Rejected TypeError.
Proof.
  destruct (missing_children_field_rejects (deep_clone 10) odd_post 0 (Some (Fin 2)) (Fin 3) [])
    as [H _].
  - reflexivity.
  - reflexivity.
  - reflexivity.
  - exact H.
Defined.

Lemma result_is_the_clone_witness : 5 = (deep_clone 10 thread 0).2.
Proof.
  apply (result_is_the_clone (deep_clone 10) thread 0 (budget 2 2)
           (FetchDone FetchOk :: sample_run) 5).
  reflexivity.
Defined.

Lemma depth_one_is_complete_witness :
  let s := exec (deep_clone 10) (expandReplies 0 (budget 2 1) thread)
             [FetchDone FetchOk; FetchMoreDone 0 one_more_reply] in
  expand_promise s = Pending \/
  (pending s = [] /\ Forall (fun c => c_promise c <> Pending) (calls s)).
Proof.
  apply (depth_one_is_complete (deep_clone 10) thread 0 (Some (Fin 2)) (Fin 1)
           [FetchDone FetchOk; FetchMoreDone 0 one_more_reply]).
  reflexivity.
Defined.

Lemma calls_keep_limit_and_depth_witness :
  c_limit {| c_this := 3; c_limit := Fin 2; c_depth := Fin 1; c_promise := Pending |}
  = Fin 2 /\
  exists k, Fin 1 = Fin k /\ (0 <= k <= 2)%Z.
Proof.
  apply (calls_keep_limit_and_depth (deep_clone 10) thread 0 (Some (Fin 2)) 2
           [FetchDone FetchOk; FetchMoreDone 0 same_replies]
           {| c_this := 3; c_limit := Fin 2; c_depth := Fin 1; c_promise := Pending |}).
  - lia.
  - vm_compute. right. left.
Defined.


Lemma only_the_children_field_is_written_witness :
  let s := exec (deep_clone 10) (expandReplies 0 (budget 2 2) thread)
             (FetchDone FetchOk :: sample_run) in
  exists e', ents (heap s) !! 5 = Some e' /\ _name e' = "Comment" /\
             forall k, k <> "replies" ->
                       prop_get k (fields e') = prop_get k (fields (comment "t1_root" 5)).
Proof.
  apply (only_the_children_field_is_written (deep_clone 10) thread 0 (budget 2 2)
           sample_run 5 (comment "t1_root" 5)).
  reflexivity.
Defined.

Lemma negative_limit_counts_from_the_end_witness :
  let s := exec (deep_clone 10) (expandReplies 0 (budget (-1) 2) thread) [FetchDone FetchOk] in
  map call_args (calls (resume {| t_call := 0; t_this := 5; t_key := "replies";
                                  t_limit := Fin (-1); t_depth := Fin 2; t_listing := 5;
                                  t_amount := Fin (-3) |} same_replies s).1)
  = [(5, Fin (-1), Fin 2); (3, Fin (-1), Fin 1)].
Proof.
  intros s.
  apply (negative_limit_counts_from_the_end
           {| t_call := 0; t_this := 5; t_key := "replies"; t_limit := Fin (-1);
              t_depth := Fin 2; t_listing := 5; t_amount := Fin (-3) |}
           s [] [[3; 4]] 6 [3; 4] (-1)).
  - reflexivity.
  - lia.
  - reflexivity.
  - reflexivity.
Defined.

Lemma unbounded_depth_need_not_end_witness :
  ~ Acc (next (deep_clone 10)) (expandReplies 0 no_options thread).
Proof.
  apply (unbounded_depth_need_not_end (deep_clone 10) thread 0 None None 5 [3; 4]).
  - reflexivity.
  - reflexivity.
  - reflexivity.
Defined.

Lemma actions_ignore_the_body_witness :
  save bool strict_requester thread 0 = save nat numbering_requester thread 0 /\
  upvote bool strict_requester thread 0 = upvote nat numbering_requester thread 0.
Proof.
  destruct (actions_ignore_the_body bool nat strict_requester numbering_requester
              template_string thread 0) as (Hup & _ & _ & Hsave & _).
  - intros req. unfold outcome, strict_requester, numbering_requester.
    destruct (String.eqb (url req) "api/vote"); reflexivity.
  - split; [exact Hsave | exact Hup].
Defined.

Lemma actions_read_only_the_name_witness :
  (save bool strict_requester thread 0).1
  = (save bool strict_requester (deep_clone 10 thread 0).1 5).1.
Proof.
  destruct (actions_read_only_the_name bool strict_requester (fun _ => None)
              template_string thread (deep_clone 10 thread 0).1 0 5) as (_ & H & _).
  - reflexivity.
  - exact H.
Defined.

Lemma gild_url_witness :
  (gild bool strict_requester template_string thread 1).1
  = {| url := "api/v1/gold/gild/t1_a"; form := [] |}.
Proof.
  destruct (gild_url bool strict_requester template_string thread 1) as (H & _).
  - intros n. reflexivity.
  - reflexivity.
  - apply (H "t1_a"). reflexivity.
Defined.

(** ** The answer that settles the promise *)

Section FirstAnswer.

Variable _clone : Heap -> addr -> Heap * addr.

(** The state [this.fetch()] leaves when the clone has a Listing of
    children and [depth > 0]: one call, suspended at its request. *)
Lemma after_fetch_listing (E : addr) (options : ExpandOptions) (h : Heap)
    (l : laddr) (items : list addr) :
  let lim := default Inf (limit options) in
  let dep := default Inf (depth options) in
  let s := step _clone (expandReplies E options h) (FetchDone FetchOk) in
  let c := (_clone h E).2 in
  num_le0 dep = false ->
  field_listing (_clone h E).1 c = Some (l, items) ->
  stage s = Expanding /\ heap s = (_clone h E).1 /\
  exists e,
    pending s = [ {| t_call := 0; t_this := c; t_key := repliesKey e; t_limit := lim;
                     t_depth := dep; t_listing := l;
                     t_amount := num_sub_len lim (length items) |} ] /\
    calls s = [ {| c_this := c; c_limit := lim; c_depth := dep; c_promise := Pending |} ].
Proof.
  intros lim dep s c Hdep Hl. subst s c.
  cbn [step expandReplies stage]. fold lim dep.
  unfold after_fetch. cbn [heap expandReplies].
  destruct (_clone h E) as [h1 c]. cbn [fst snd] in *.
  set (s0 := with_stage Expanding _).
  destruct (mutate_listing c lim dep s0 l items Hdep Hl) as (e & He & Hm).
  change (ents h1 !! c) with (ents (heap s0) !! c). rewrite He, Hm. cbn.
  split; [reflexivity |]. split; [reflexivity |]. exists e. split; reflexivity.
Qed.

(** X15. The promise of an expansion with [depth > 0] is settled by the
    answer to the first request, the one on the children of the clone:
    when that answer is a Listing whose first [limit] items are entities,
    the promise of [expandReplies] is fulfilled with the clone in that very
    turn, and no answer that comes later, failure or not, changes it. *)
Theorem first_answer_settles_the_promise
    (h : Heap) (E : addr) (lim : option num) (dep : num)
    (l : laddr) (items : list addr)
    (new_ents : list Entity) (new_lsts : list Listing) (l' : laddr) (items' : list addr)
    (tr : list event) :
  num_le0 dep = false ->
  field_listing (_clone h E).1 (_clone h E).2 = Some (l, items) ->
  (lsts (_clone h E).1 ++ new_lsts) !! l' = Some items' ->
  forallb (fun a => a <? length (ents (_clone h E).1) + length new_ents)
          (slice0 (default Inf lim) items') = true ->
  expand_promise
    (exec _clone (expandReplies E {| limit := lim; depth := Some dep |} h)
       (FetchDone FetchOk :: FetchMoreDone 0 (FmOk new_ents new_lsts l') :: tr))
  = Fulfilled (_clone h E).2.
Proof.
  intros Hdep Hl Hl' Hvalid.
  change (exec _clone ?s0 (?ev1 :: ?ev2 :: tr))
    with (exec _clone (step _clone (step _clone s0 ev1) ev2) tr).
  apply root_fulfilled_exec.
  destruct (after_fetch_listing E {| limit := lim; depth := Some dep |} h l items Hdep Hl)
    as (Hst & Hh & e & Hp & Hc).
  set (s1 := step _clone _ (FetchDone FetchOk)) in *.
  cbn [default from_option id limit depth] in Hp, Hc.
  set (t0 := {| t_call := 0; t_this := (_clone h E).2 |}) in Hp.
  assert (pending s1 !! 0 = Some t0) as Ht by now rewrite Hp.
  rewrite (step_fetchMore _ _ _ _ _ Hst Ht).
  rewrite <- Hh in Hl', Hvalid.
  destruct (resume_log t0 new_ents new_lsts l' s1 items' Hl') as (k & _ & _ & Hall).
  destruct (Hall Hvalid) as (_ & p & Hlook).
  destruct (resume_calls t0 (FmOk new_ents new_lsts l') s1) as (more & q & Hcalls & _).
  split; [| split].
  - cbn [with_pending stage]. now rewrite resume_stage.
  - cbn [with_pending calls].
    destruct (calls (resume t0 (FmOk new_ents new_lsts l') s1).1 !! 0) as [x |] eqn:Hx.
    + exists x. split; [reflexivity |]. change (t_call t0) with 0 in Hlook.
      rewrite Hx in Hlook. destruct p as [y |]; [| discriminate].
      injection Hlook as ->. reflexivity.
    + exfalso. apply lookup_ge_None in Hx.
      rewrite Hcalls, length_alter, length_app, Hc in Hx. simpl in Hx. lia.
  - cbn [with_pending pending]. rewrite Hp. cbn [take drop app]. rewrite app_nil_r.
    eapply Forall_impl; [apply resume_tasks |].
    intros t' (id & ne & nl & l1 & its & Hid & _ & _ & _ & Hsp).
    destruct Hsp as (Hcall & _). rewrite Hc in Hid. simpl in Hid. lia.
Qed.

End FirstAnswer.

Lemma first_answer_settles_the_promise_witness :
  expand_promise
    (exec (deep_clone 10) (expandReplies 0 (budget 2 3) thread)
       [FetchDone FetchOk; FetchMoreDone 0 same_replies;
        FetchMoreDone 0 (FmFail (ServiceError 503))])
  = Fulfilled 5.
Proof.
  apply (first_answer_settles_the_promise (deep_clone 10) thread 0 (Some (Fin 2)) (Fin 3)
           5 [3; 4] [] [[3; 4]] 6 [3; 4] [FetchMoreDone 0 (FmFail (ServiceError 503))]).
  - reflexivity.
  - reflexivity.
  - reflexivity.
  - reflexivity.
Defined.
